(** * matrix.c: square matrices of unsigned 32-bit integers

    A shallow embedding of [src/matrix.c] and the proofs of its contract.

    Modelling conventions.
    - A [uint32_t] is a [Z]; every arithmetic result stored in one is
      reduced with [wrap32] (arithmetic modulo 2^32).
    - The [ssize_t] globals and indices are [Z] and their arithmetic is
      exact.  An index computed by a loop is bounded by [g_elements], the
      size of the buffer; where an index comes from the caller
      ([display_element]) or from the order ([set_dimensions]) the exact
      result is the code's only while it fits in 64 bits, and the theorems
      that depend on it say so with [ssize_range].  [calloc] is assumed to
      succeed; a negative element count yields the empty buffer.
    - A matrix is the list of the words of its heap buffer.  A read or a
      write outside of the buffer, and a division by zero, are undefined
      behaviour in C: the embedding returns [Undefined].
    - The file-scope variables form the record [globals], passed explicitly;
      a function that assigns one of them returns the new record.
    - The counter of the loop of [matrix_pow] is an [int]: incrementing it
      at [INT_MAX] is a signed overflow, undefined as the other undefined
      behaviours are.  It is converted to [unsigned] where the code compares
      it with a [uint32_t].
    - A function that prints returns the text it writes on the standard
      output, a [string]; a word is printed in decimal.
    - Loops run on fuel and return [OutOfFuel] when it is exhausted.  Every
      function supplies its own fuel, and none exhausts it, whatever its
      arguments (section "The fuel suffices"). *)

From Stdlib Require Import ZArith List Lia Bool.
From stdpp Require Import base list strings pretty.
Import ListNotations.

Local Open Scope Z_scope.

(** ** Outcomes of a C computation *)

Inductive outcome (A : Type) : Type :=
| Ok (a : A)
| Undefined
| OutOfFuel.

Arguments Ok {A} a.
Arguments Undefined {A}.
Arguments OutOfFuel {A}.

#[global] Instance outcome_ret : MRet outcome := fun A a => Ok a.

#[global] Instance outcome_bind : MBind outcome := fun A B k c =>
  match c with
  | Ok a => k a
  | Undefined => Undefined
  | OutOfFuel => OutOfFuel
  end.

(** ** Machine integers *)

Definition wrap32 (z : Z) : Z := z mod 2 ^ 32.

(** [int] to [unsigned int] conversion, as in the comparison of a signed
    counter with a [uint32_t]. *)
Definition int_to_uint32 (c : Z) : Z := c mod 2 ^ 32.

(** [c++] on an [int]: defined below [INT_MAX], a signed overflow at
    [INT_MAX]. *)
Definition int_succ (c : Z) : outcome Z :=
  if c <? 2 ^ 31 - 1 then Ok (c + 1) else Undefined.

(** [ssize_t] division and remainder truncate towards zero; a zero divisor
    is undefined. *)
Definition ssize_div (a b : Z) : outcome Z :=
  if b =? 0 then Undefined else Ok (Z.quot a b).

Definition ssize_rem (a b : Z) : outcome Z :=
  if b =? 0 then Undefined else Ok (Z.rem a b).


(** ** Buffers *)

Abbreviation matrix := (list Z).

Definition load (m : matrix) (i : Z) : outcome Z :=
  if 0 <=? i then
    match m !! Z.to_nat i with
    | Some v => Ok v
    | None => Undefined
    end
  else Undefined.

Definition store (m : matrix) (i : Z) (v : Z) : outcome matrix :=
  if (0 <=? i) && (i <? Z.of_nat (length m))
  then Ok (<[Z.to_nat i := v]> m)
  else Undefined.

(** ** Loops *)

Fixpoint while_loop {St : Type} (fuel : nat) (cond : St -> bool)
    (body : St -> outcome St) (s : St) : outcome St :=
  match fuel with
  | O => OutOfFuel
  | S fuel' =>
      if cond s then s' ← body s; while_loop fuel' cond body s' else Ok s
  end.

(** [for (ssize_t i = lo; i < hi; i++) body] *)
Definition for_loop {St : Type} (lo hi : Z) (body : Z -> St -> outcome St)
    (s : St) : outcome St :=
  '(_, s') ← while_loop (S (Z.to_nat (hi - lo)))
                 (fun '(i, _) => i <? hi)
                 (fun '(i, s) => s' ← body i s; Ok (i + 1, s'))
                 (lo, s);
  Ok s'.

(** ** Global state *)

Record globals : Type := Globals {
  g_seed : Z;
  g_width : Z;
  g_height : Z;
  g_elements : Z;
  g_nthreads : Z
}.

Definition initial_globals : globals := Globals 0 0 0 0 1.

Definition with_seed (g : globals) (seed : Z) : globals :=
  Globals seed (g_width g) (g_height g) (g_elements g) (g_nthreads g).

(** ** Utility functions *)

(** [fast_rand]: [g_seed = 214013 * g_seed + 2531011] on [uint32_t], then
    [(g_seed >> 16) & 0x7FFF]. *)
Definition fast_rand (g : globals) : Z * globals :=
  let seed := wrap32 (214013 * g_seed g + 2531011) in
  (Z.land (Z.shiftr seed 16) 32767, with_seed g seed).

Definition set_seed (seed : Z) (g : globals) : globals := with_seed g seed.

(** [set_dimensions]: [g_width = g_height = order] and
    [g_elements = g_width * g_height].  The product is exact: it is the
    code's for [order * order] in [ssize_range], that is for an order below
    3037000500 in absolute value. *)
Definition set_dimensions (order : Z) (g : globals) : globals :=
  Globals (g_seed g) order order (order * order) (g_nthreads g).

(** ** Matrix initialisations *)

(** [new_matrix]: [calloc (g_elements, sizeof (uint32_t))]. *)
Definition new_matrix (g : globals) : matrix :=
  replicate (Z.to_nat (g_elements g)) 0.

(** [identity_matrix]: [matrix[i * g_width + i] = 1] for [i < g_width]. *)
Definition identity_matrix (g : globals) : outcome matrix :=
  for_loop 0 (g_width g)
    (fun i m => store m (i * g_width g + i) 1)
    (new_matrix g).

(** [random_matrix]: allocate, [set_seed (seed)], then
    [matrix[i] = fast_rand ()] for [i < g_elements]. *)
Definition random_matrix (seed : Z) (g : globals) : outcome (matrix * globals) :=
  let m := new_matrix g in
  let g := set_seed seed g in
  for_loop 0 (g_elements g)
    (fun i '(m, g) =>
       let '(r, g) := fast_rand g in
       m ← store m i r; Ok (m, g))
    (m, g).

(** ** Matrix operations *)

(** [reversed]: [result[i] = matrix[g_elements - 1 - i]]. *)
Definition reversed (g : globals) (m : matrix) : outcome matrix :=
  for_loop 0 (g_elements g)
    (fun i result =>
       v ← load m (g_elements g - 1 - i);
       store result i v)
    (new_matrix g).

(** [scalar_add]: [result[c] = matrix[c] + scalar] on [uint32_t]. *)
Definition scalar_add (g : globals) (m : matrix) (scalar : Z) : outcome matrix :=
  for_loop 0 (g_elements g)
    (fun c result =>
       v ← load m c;
       store result c (wrap32 (v + scalar)))
    (new_matrix g).

(** The innermost loop of [matrix_mul]:
    [for (second_column = ...; second_column < g_elements;
          second_column += g_width)
       result[c] += matrix_a[first_row++] * matrix_b[second_column];]
    over the state (first_row, second_column, result). *)
Definition mul_column_loop (g : globals) (a b : matrix) (c : Z)
    (s : Z * Z * matrix) : outcome (Z * Z * matrix) :=
  while_loop (S (Z.to_nat (g_elements g)))
    (fun '(_, second_column, _) => second_column <? g_elements g)
    (fun '(first_row, second_column, result) =>
       x ← load a first_row;
       y ← load b second_column;
       r ← load result c;
       result ← store result c (wrap32 (r + wrap32 (x * y)));
       Ok (first_row + 1, second_column + g_width g, result))
    s.

(** The middle loop of [matrix_mul] has no increment and ends in [break]:
    its body runs once when the condition holds at entry. *)
Definition mul_row_loop (g : globals) (a b : matrix) (c : Z)
    (result : matrix) : outcome matrix :=
  q ← ssize_div c (g_width g);
  let first_row := q * g_width g in
  if first_row <? g_elements g then
    second_column ← ssize_rem c (g_width g);
    '(_, _, result) ← mul_column_loop g a b c (first_row, second_column, result);
    Ok result
  else Ok result.

(** [matrix_mul]: the outer loop over the linear index [c] of the result,
    which starts as the zero matrix. *)
Definition matrix_mul (g : globals) (a b : matrix) : outcome matrix :=
  for_loop 0 (g_elements g) (mul_row_loop g a b) (new_matrix g).

(** [matrix_pow]: [result = new_matrix ()], then
    [for (int c = 0; c < exponent - 1 && exponent != 0; c++)
       result = matrix_mul (result, matrix);]
    and last [if (exponent == 0) result = identity_matrix ();].
    The counter is converted to unsigned for the comparison,
    [exponent - 1] is computed on [uint32_t], and [c++] runs after the
    body. *)
Definition matrix_pow (g : globals) (m : matrix) (exponent : Z) : outcome matrix :=
  let result := new_matrix g in
  '(_, result) ← while_loop (S (Z.to_nat exponent))
                     (fun '(c, _) =>
                        (int_to_uint32 c <? wrap32 (exponent - 1))
                        && negb (exponent =? 0))
                     (fun '(c, result) =>
                        result ← matrix_mul g result m;
                        c ← int_succ c;
                        Ok (c, result))
                     (0, result);
  if exponent =? 0 then identity_matrix g else Ok result.

(** ** Computations *)

(** [get_sum]: [sum_all_elements += matrix[c]] on [uint32_t]. *)
Definition get_sum (g : globals) (m : matrix) : outcome Z :=
  for_loop 0 (g_elements g)
    (fun c sum_all_elements =>
       v ← load m c; Ok (wrap32 (sum_all_elements + v)))
    0.

(** [get_minimum]: the scan starts from [matrix[0]], read before the
    loop. *)
Definition get_minimum (g : globals) (m : matrix) : outcome Z :=
  matrix_smallest_val ← load m 0;
  for_loop 0 (g_elements g)
    (fun c matrix_smallest_val =>
       v ← load m c;
       Ok (if v <? matrix_smallest_val then v else matrix_smallest_val))
    matrix_smallest_val.

(** ** The remaining operations *)

(** [set_nthreads]: [g_nthreads = count]. *)
Definition set_nthreads (count : Z) (g : globals) : globals :=
  Globals (g_seed g) (g_width g) (g_height g) (g_elements g) count.

(** [uniform_matrix]: [matrix[i] = value]. *)
Definition uniform_matrix (g : globals) (value : Z) : outcome matrix :=
  for_loop 0 (g_elements g)
    (fun i m => store m i value)
    (new_matrix g).

(** [sequence_matrix]: [matrix[i] = current; current += step;] on
    [uint32_t], over the state (matrix, current). *)
Definition sequence_matrix (g : globals) (start step : Z) : outcome matrix :=
  '(m, _) ← for_loop 0 (g_elements g)
              (fun i '(m, current) =>
                 m ← store m i current;
                 Ok (m, wrap32 (current + step)))
              (new_matrix g, start);
  Ok m.

(** [cloned]: [result[i] = matrix[i]]. *)
Definition cloned (g : globals) (m : matrix) : outcome matrix :=
  for_loop 0 (g_elements g)
    (fun i result =>
       v ← load m i;
       store result i v)
    (new_matrix g).

(** [transposed]: for [y < g_height] and [x < g_width],
    [result[x * g_width + y] = matrix[y * g_width + x]]. *)
Definition transposed (g : globals) (m : matrix) : outcome matrix :=
  for_loop 0 (g_height g)
    (fun y result =>
       for_loop 0 (g_width g)
         (fun x result =>
            v ← load m (y * g_width g + x);
            store result (x * g_width g + y) v)
         result)
    (new_matrix g).

(** [scalar_mul]: [result[c] = matrix[c] * scalar] on [uint32_t]. *)
Definition scalar_mul (g : globals) (m : matrix) (scalar : Z) : outcome matrix :=
  for_loop 0 (g_elements g)
    (fun c result =>
       v ← load m c;
       store result c (wrap32 (v * scalar)))
    (new_matrix g).

(** [matrix_add]: [result[c] = matrix_a[c] + matrix_b[c]] on [uint32_t]. *)
Definition matrix_add (g : globals) (a b : matrix) : outcome matrix :=
  for_loop 0 (g_elements g)
    (fun c result =>
       x ← load a c;
       y ← load b c;
       store result c (wrap32 (x + y)))
    (new_matrix g).

(** [get_trace]: [matrix_trace += matrix[c * g_width + c]] for
    [c < g_width], on [uint32_t]. *)
Definition get_trace (g : globals) (m : matrix) : outcome Z :=
  for_loop 0 (g_width g)
    (fun c matrix_trace =>
       v ← load m (c * g_width g + c);
       Ok (wrap32 (matrix_trace + v)))
    0.

(** [get_maximum]: the scan starts from [matrix[0]], read before the
    loop. *)
Definition get_maximum (g : globals) (m : matrix) : outcome Z :=
  matrix_largest_val ← load m 0;
  for_loop 0 (g_elements g)
    (fun c matrix_largest_val =>
       v ← load m c;
       Ok (if v >? matrix_largest_val then v else matrix_largest_val))
    matrix_largest_val.

(** [get_frequency]: [freq_counter++] on [uint32_t] for every word equal
    to [value]. *)
Definition get_frequency (g : globals) (m : matrix) (value : Z) : outcome Z :=
  for_loop 0 (g_elements g)
    (fun c freq_counter =>
       v ← load m c;
       Ok (if v =? value then wrap32 (freq_counter + 1) else freq_counter))
    0.

(** ** Display

    The text a call writes on the standard output is its result. *)

(** The text of [printf ("%" PRIu32, v)]. *)
Definition print_uint32 (v : Z) : string := pretty (Z.to_N v).

Definition newline : string := String (Ascii.ascii_of_nat 10) EmptyString.

(** The loop over the columns of one row, the same in [display] and in
    [display_row]:
    [if (x > 0) printf (" "); printf ("%" PRIu32, matrix[row * g_width + x]);]
    appended to the text [out] written so far. *)
Definition display_cells (g : globals) (m : matrix) (row : Z) (out : string)
    : outcome string :=
  for_loop 0 (g_width g)
    (fun x out =>
       let out := if x >? 0 then out +:+ " " else out in
       v ← load m (row * g_width g + x);
       Ok (out +:+ print_uint32 v))
    out.

Definition display (g : globals) (m : matrix) : outcome string :=
  for_loop 0 (g_height g)
    (fun y out =>
       out ← display_cells g m y out;
       Ok (out +:+ newline))
    "".

Definition display_row (g : globals) (m : matrix) (row : Z) : outcome string :=
  out ← display_cells g m row "";
  Ok (out +:+ newline).

Definition display_column (g : globals) (m : matrix) (column : Z)
    : outcome string :=
  for_loop 0 (g_height g)
    (fun y out =>
       v ← load m (y * g_width g + column);
       Ok (out +:+ print_uint32 v +:+ newline))
    "".

(** [display_element]: both indices come from the caller and the index
    [row * g_width + column] is exact: it is the code's when the product
    and the sum are in [ssize_range]. *)
Definition display_element (g : globals) (m : matrix) (row column : Z)
    : outcome string :=
  v ← load m (row * g_width g + column);
  Ok (print_uint32 v +:+ newline).

(** ** Contexts and reading a matrix *)

(** The dimension context left by [set_dimensions N]. *)
Definition square_context (g : globals) (N : Z) : Prop :=
  g_width g = N /\ g_height g = N /\ g_elements g = N * N.

(** A matrix created under the context [g] has [g_elements g] words. *)
Definition under_context (g : globals) (m : matrix) : Prop :=
  Z.of_nat (length m) = g_elements g.

(** The word at linear index [i]. *)
Definition cell (m : matrix) (i : Z) : Z := m !!! Z.to_nat i.

Definition order2 : globals := set_dimensions 2 initial_globals.
Definition order3 : globals := set_dimensions 3 initial_globals.

(** ** Reference values *)

(** The first [n] terms of the dot product of row [row] of [a] with column
    [col] of [b], every addition and multiplication taken on [uint32_t]. *)
Fixpoint dot32 (w : Z) (a b : matrix) (row col : Z) (n : nat) : Z :=
  match n with
  | O => 0
  | S k =>
      wrap32 (dot32 w a b row col k
              + wrap32 (cell a (row * w + Z.of_nat k) * cell b (Z.of_nat k * w + col)))
  end.

(** The cell of the product at linear index [c]. *)
Definition product_cell (N : Z) (a b : matrix) (c : Z) : Z :=
  dot32 N a b (c / N) (c mod N) (Z.to_nat N).

(** The words of a matrix are [uint32_t] values. *)
Definition uint32_words (m : matrix) : Prop :=
  Forall (fun x => 0 <= x < 2 ^ 32) m.

(** The state of the generator after [n] draws from [seed], and the value
    of draw number [k] (counted from 0). *)
Definition seed_after (seed : Z) (n : nat) : Z :=
  Nat.iter n (fun s => wrap32 (214013 * s + 2531011)) seed.

Definition draw (seed : Z) (k : nat) : Z :=
  Z.land (Z.shiftr (seed_after seed (S k)) 16) 32767.

(** Two states hold the same dimension context. *)
Definition same_dimensions (g1 g2 : globals) : Prop :=
  g_width g1 = g_width g2 /\ g_height g1 = g_height g2
  /\ g_elements g1 = g_elements g2.

(** The exact sum of the first [n] words of [m]. *)
Fixpoint prefix_sum (m : matrix) (n : nat) : Z :=
  match n with
  | O => 0
  | S k => prefix_sum m k + cell m (Z.of_nat k)
  end.

(** The exact sum [f 0 + ... + f (n - 1)]. *)
Fixpoint sum_upto (f : nat -> Z) (n : nat) : Z :=
  match n with
  | O => 0
  | S k => sum_upto f k + f k
  end.

(** The exact sum of the first [n] diagonal words of [m] at order [N]. *)
Definition diagonal_sum (N : Z) (m : matrix) (n : nat) : Z :=
  sum_upto (fun k => cell m (Z.of_nat k * N + Z.of_nat k)) n.

(** The number of words of [m] equal to [value]. *)
Definition occurrences (m : matrix) (value : Z) : Z :=
  Z.of_nat (count_occ Z.eq_dec m value).

(** One word is a [uint32_t] value. *)
Definition uint32 (x : Z) : Prop := 0 <= x < 2 ^ 32.

(** The words of row [row] of a matrix of order [N]. *)
Definition row_words (N : Z) (m : matrix) (row : Z) : matrix :=
  take (Z.to_nat N) (drop (Z.to_nat (row * N)) m).

(** The texts of a list, one after the other. *)
Definition joined (texts : list string) : string :=
  foldr String.append "" texts.

(** * Proofs *)

(** ** Reasoning about outcomes and loops *)

Lemma bind_Ok {A B : Type} (a : A) (k : A -> outcome B) :
  (x ← Ok a; k x) = k a.
Proof. reflexivity. Qed.

Section While.
Context {St : Type}.

(** Total correctness of a fuelled loop: an invariant and a variant that
    starts below the fuel. *)
Lemma while_loop_rule (Inv : St -> Prop) (variant : St -> nat)
    (cond : St -> bool) (body : St -> outcome St) :
  (forall s, Inv s -> cond s = true ->
     exists s', body s = Ok s' /\ Inv s' /\ (variant s' < variant s)%nat) ->
  forall fuel s, Inv s -> (variant s < fuel)%nat ->
  exists s', while_loop fuel cond body s = Ok s' /\ Inv s' /\ cond s' = false.
Proof.
  intros Hstep fuel. induction fuel as [|fuel IH]; intros s Hinv Hlt; [lia|].
  simpl. destruct (cond s) eqn:Hc.
  - destruct (Hstep s Hinv Hc) as (s' & Hb & Hinv' & Hdec).
    rewrite Hb. simpl. apply IH; [assumption | lia].
  - exists s. auto.
Qed.
End While.

Section For.
Context {St : Type}.

Lemma for_loop_rule (Inv : Z -> St -> Prop) (lo hi : Z)
    (body : Z -> St -> outcome St) (s : St) :
  lo <= hi -> Inv lo s ->
  (forall i s, lo <= i < hi -> Inv i s ->
     exists s', body i s = Ok s' /\ Inv (i + 1) s') ->
  exists s', for_loop lo hi body s = Ok s' /\ Inv hi s'.
Proof.
  intros Hle Hinv Hstep. unfold for_loop.
  destruct (while_loop_rule
              (fun p : Z * St => lo <= p.1 <= hi /\ Inv p.1 p.2)
              (fun p : Z * St => Z.to_nat (hi - p.1))
              (fun '(i, _) => i <? hi)
              (fun '(i, s) => s' ← body i s; Ok (i + 1, s')))
    with (fuel := S (Z.to_nat (hi - lo))) (s := (lo, s))
    as ([i s'] & Hrun & [Hi Hs'] & Hc).
  - intros [i t] [Hi Ht] Hc. simpl in *. apply Z.ltb_lt in Hc.
    destruct (Hstep i t) as (t' & Hb & Ht'); [lia | assumption |].
    exists (i + 1, t'). rewrite Hb. simpl. repeat split; try lia. assumption.
  - simpl. split; [lia | assumption].
  - simpl. lia.
  - simpl in *. apply Z.ltb_ge in Hc. rewrite Hrun. simpl.
    exists s'. split; [reflexivity|]. by replace hi with i by lia.
Qed.

Lemma for_loop_empty (lo hi : Z) (body : Z -> St -> outcome St) (s : St) :
  hi <= lo -> for_loop lo hi body s = Ok s.
Proof.
  intros H. unfold for_loop. simpl.
  by replace (lo <? hi) with false by (symmetry; apply Z.ltb_ge; lia).
Qed.

(** A counted loop never exhausts its fuel. *)
Lemma for_loop_fuel (lo hi : Z) (body : Z -> St -> outcome St) (s : St) :
  (forall i t, lo <= i < hi -> body i t <> OutOfFuel) ->
  for_loop lo hi body s <> OutOfFuel.
Proof.
  intros Hbody. unfold for_loop.
  assert (forall fuel i t, lo <= i -> (Z.to_nat (hi - i) < fuel)%nat ->
            while_loop fuel (fun '(i, _) => i <? hi)
              (fun '(i, s) => s' ← body i s; Ok (i + 1, s')) (i, t)
            <> OutOfFuel) as Hloop.
  { induction fuel as [|fuel IH]; intros i t Hlo Hlt; [lia|].
    simpl. destruct (i <? hi) eqn:Hc; [|discriminate].
    apply Z.ltb_lt in Hc. specialize (Hbody i t ltac:(lia)).
    destruct (body i t) as [t'| |]; simpl; try done.
    apply IH; lia. }
  specialize (Hloop (S (Z.to_nat (hi - lo))) lo s ltac:(lia) ltac:(lia)).
  destruct (while_loop _ _ _ _) as [[i t]| |]; simpl; done.
Qed.
End For.

(** ** Reading and writing buffers *)

Lemma load_cell (m : matrix) (i : Z) :
  0 <= i < Z.of_nat (length m) -> load m i = Ok (cell m i).
Proof.
  intros H. unfold load, cell.
  replace (0 <=? i) with true by (symmetry; apply Z.leb_le; lia).
  rewrite list_lookup_lookup_total_lt by lia. reflexivity.
Qed.

Lemma load_undefined (m : matrix) (i : Z) :
  ~ (0 <= i < Z.of_nat (length m)) -> load m i = Undefined.
Proof.
  intros H. unfold load. destruct (0 <=? i) eqn:Hi; [|reflexivity].
  apply Z.leb_le in Hi. rewrite lookup_ge_None_2 by lia. reflexivity.
Qed.

Lemma store_ok (m : matrix) (i v : Z) :
  0 <= i < Z.of_nat (length m) -> store m i v = Ok (<[Z.to_nat i := v]> m).
Proof.
  intros H. unfold store.
  replace (0 <=? i) with true by (symmetry; apply Z.leb_le; lia).
  by replace (i <? Z.of_nat (length m)) with true by (symmetry; apply Z.ltb_lt; lia).
Qed.

Lemma cell_insert_eq (m : matrix) (i v : Z) :
  0 <= i < Z.of_nat (length m) -> cell (<[Z.to_nat i := v]> m) i = v.
Proof. intros H. unfold cell. apply list_lookup_total_insert_eq. lia. Qed.

Lemma cell_insert_ne (m : matrix) (i j v : Z) :
  0 <= i -> 0 <= j -> i <> j -> cell (<[Z.to_nat i := v]> m) j = cell m j.
Proof. intros Hi Hj Hne. unfold cell. apply list_lookup_total_insert_ne. lia. Qed.

Lemma length_new_matrix (g : globals) :
  length (new_matrix g) = Z.to_nat (g_elements g).
Proof. apply length_replicate. Qed.

Lemma cell_new_matrix (g : globals) (i : Z) :
  0 <= i < g_elements g -> cell (new_matrix g) i = 0.
Proof.
  intros H. unfold cell, new_matrix. apply lookup_total_replicate_2. lia.
Qed.

Lemma matrix_ext (m1 m2 : matrix) :
  length m1 = length m2 ->
  (forall i, 0 <= i < Z.of_nat (length m1) -> cell m1 i = cell m2 i) ->
  m1 = m2.
Proof.
  intros Hlen Hcell. apply list_eq_same_length with (n := length m1); try done.
  intros i x y Hi Hx Hy.
  specialize (Hcell (Z.of_nat i) ltac:(lia)). unfold cell in Hcell.
  rewrite Nat2Z.id in Hcell.
  apply list_lookup_total_correct in Hx, Hy. congruence.
Qed.

(** ** Matrix product *)

Lemma row_col_bounds (N c : Z) :
  0 <= N -> 0 <= c < N * N ->
  0 < N /\ 0 <= c / N < N /\ 0 <= c mod N < N /\ c = c / N * N + c mod N.
Proof.
  intros HN Hc. assert (0 < N) by nia.
  pose proof (Z.div_mod c N ltac:(lia)).
  pose proof (Z.mod_pos_bound c N ltac:(lia)).
  assert (0 <= c / N) by (apply Z.div_pos; lia).
  assert (c / N < N) by (apply Z.div_lt_upper_bound; lia).
  lia.
Qed.

Lemma index_bound (N row k : Z) :
  0 <= row < N -> 0 <= k < N -> 0 <= row * N + k < N * N.
Proof. intros Hr Hk. nia. Qed.

Lemma stride_continue (N col j : Z) :
  0 < N -> 0 <= col -> col + j * N < N * N -> j < N.
Proof. intros HN Hc H. nia. Qed.

Lemma stride_exit (N col j : Z) :
  0 <= col < N -> j <= N -> N * N <= col + j * N -> j = N.
Proof. intros Hc Hj H. nia. Qed.

Section Product.
Variables (g : globals) (N : Z) (a b : matrix).
Hypothesis Hctx : square_context g N.
Hypothesis HN : 0 <= N.
Hypothesis Ha : under_context g a.
Hypothesis Hb : under_context g b.

Lemma mul_column_loop_spec (c : Z) (r : matrix) :
  under_context g r -> 0 <= c < N * N -> cell r c = 0 ->
  exists fr sc,
    mul_column_loop g a b c (c / N * N, c mod N, r)
    = Ok (fr, sc, <[Z.to_nat c := product_cell N a b c]> r).
Proof.
  intros Hr Hc Hzero.
  destruct Hctx as (Hw & _ & He).
  assert (Z.of_nat (length a) = N * N) as Hla by (rewrite <- He; exact Ha).
  assert (Z.of_nat (length b) = N * N) as Hlb by (rewrite <- He; exact Hb).
  assert (Z.of_nat (length r) = N * N) as Hlr by (rewrite <- He; exact Hr).
  destruct (row_col_bounds N c HN Hc) as (HNpos & Hrow & Hcol & Hdm).
  unfold product_cell.
  set (row := c / N) in *. set (col := c mod N) in *. clearbody row col.
  unfold mul_column_loop. rewrite He, Hw.
  destruct (while_loop_rule
    (fun s : Z * Z * matrix =>
       exists j : nat, Z.of_nat j <= N /\
         s = (row * N + Z.of_nat j, col + Z.of_nat j * N,
              <[Z.to_nat c := dot32 N a b row col j]> r))
    (fun s : Z * Z * matrix => Z.to_nat (N * N - s.1.2))
    (fun '(_, second_column, _) => second_column <? N * N)
    (fun '(first_row, second_column, result) =>
       x ← load a first_row;
       y ← load b second_column;
       r ← load result c;
       result ← store result c (wrap32 (r + wrap32 (x * y)));
       Ok (first_row + 1, second_column + N, result)))
    with (fuel := S (Z.to_nat (N * N))) (s := (row * N, col, r))
    as (s' & Hrun & (j & Hj & ->) & Hexit).
  - intros s (j & Hj & ->) Hcond. apply Z.ltb_lt in Hcond.
    simpl in Hcond.
    assert (Z.of_nat j < N) by (apply (stride_continue N col); lia).
    assert (0 <= row * N + Z.of_nat j < N * N) by (apply index_bound; lia).
    rewrite (load_cell a) by lia. rewrite bind_Ok.
    rewrite (load_cell b) by lia. rewrite bind_Ok.
    rewrite load_cell by (rewrite length_insert; lia). rewrite bind_Ok.
    rewrite store_ok by (rewrite length_insert; lia). rewrite bind_Ok.
    rewrite cell_insert_eq by lia. rewrite list_insert_insert_eq.
    exists (row * N + Z.of_nat j + 1, col + Z.of_nat j * N + N,
            <[Z.to_nat c := dot32 N a b row col (S j)]> r).
    split; [|split].
    + simpl dot32. by replace (col + Z.of_nat j * N) with (Z.of_nat j * N + col) by lia.
    + exists (S j). split; [lia|]. rewrite Nat2Z.inj_succ.
      f_equal. f_equal; lia.
    + simpl. nia.
  - exists O. split; [lia|]. simpl dot32.
    rewrite list_insert_id.
    + f_equal. f_equal; lia.
    + rewrite <- Hzero. apply list_lookup_lookup_total_lt. lia.
  - simpl. lia.
  - apply Z.ltb_ge in Hexit. simpl in Hexit.
    assert (Z.of_nat j = N) as Hj' by (apply (stride_exit N col); lia).
    do 2 eexists. rewrite Hrun.
    by replace (Z.to_nat N) with j by lia.
Qed.

Lemma mul_row_loop_spec (c : Z) (r : matrix) :
  under_context g r -> 0 <= c < N * N -> cell r c = 0 ->
  mul_row_loop g a b c r = Ok (<[Z.to_nat c := product_cell N a b c]> r).
Proof.
  intros Hr Hc Hzero.
  destruct (mul_column_loop_spec c r Hr Hc Hzero) as (fr & sc & Hrun).
  destruct Hctx as (Hw & _ & He).
  destruct (row_col_bounds N c HN Hc) as (HNpos & Hrow & Hcol & Hdm).
  unfold mul_row_loop, ssize_div, ssize_rem. rewrite Hw, He.
  replace (N =? 0) with false by (symmetry; apply Z.eqb_neq; lia).
  rewrite !bind_Ok. rewrite Z.quot_div_nonneg by lia.
  replace (c / N * N <? N * N) with true by (symmetry; apply Z.ltb_lt; lia).
  cbv iota. rewrite Z.rem_mod_nonneg by lia.
  rewrite Hrun. reflexivity.
Qed.

(** [matrix_mul] returns the product, cell by cell. *)
Lemma matrix_mul_spec :
  exists r, matrix_mul g a b = Ok r /\ under_context g r /\
    forall c, 0 <= c < N * N -> cell r c = product_cell N a b c.
Proof.
  pose proof Hctx as (Hw & _ & He).
  unfold matrix_mul.
  destruct (for_loop_rule
    (fun i (r : matrix) =>
       under_context g r /\
       (forall c, 0 <= c < i -> cell r c = product_cell N a b c) /\
       (forall c, i <= c < N * N -> cell r c = 0))
    0 (g_elements g) (mul_row_loop g a b) (new_matrix g))
    as (r & Hrun & Hr & Hdone & _).
  - nia.
  - split; [|split].
    + unfold under_context. rewrite length_new_matrix. nia.
    + intros c Hc. lia.
    + intros c Hc. apply cell_new_matrix. lia.
  - intros i r Hi (Hr & Hdone & Htodo). rewrite He in Hi.
    rewrite mul_row_loop_spec by (try apply Htodo; auto; lia).
    eexists. split; [reflexivity|]. unfold under_context in *.
    split; [|split].
    + rewrite length_insert. assumption.
    + intros c Hc. destruct (Z.eq_dec c i) as [->|Hne].
      * apply cell_insert_eq. lia.
      * rewrite cell_insert_ne by lia. apply Hdone. lia.
    + intros c Hc. rewrite cell_insert_ne by lia. apply Htodo. lia.
  - exists r. rewrite He in Hdone. auto.
Qed.
End Product.

(** ** Machine arithmetic *)

Lemma wrap32_small (z : Z) : 0 <= z < 2 ^ 32 -> wrap32 z = z.
Proof. intros H. unfold wrap32. apply Z.mod_small. lia. Qed.

Lemma wrap32_add_l (x y : Z) : wrap32 (wrap32 x + y) = wrap32 (x + y).
Proof. unfold wrap32. apply Zplus_mod_idemp_l. Qed.

Lemma wrap32_add_r (x y : Z) : wrap32 (x + wrap32 y) = wrap32 (x + y).
Proof. unfold wrap32. apply Zplus_mod_idemp_r. Qed.

Lemma int_to_uint32_small (c : Z) :
  0 <= c < 2 ^ 32 -> int_to_uint32 c = c.
Proof. intros H. unfold int_to_uint32. apply Z.mod_small. lia. Qed.

Lemma int_succ_below_max (c : Z) :
  c < 2 ^ 31 - 1 -> int_succ c = Ok (c + 1).
Proof.
  intros H. unfold int_succ.
  by replace (c <? 2 ^ 31 - 1) with true by (symmetry; apply Z.ltb_lt; lia).
Qed.

Lemma int_succ_at_max (c : Z) :
  2 ^ 31 - 1 <= c -> int_succ c = Undefined.
Proof.
  intros H. unfold int_succ.
  by replace (c <? 2 ^ 31 - 1) with false by (symmetry; apply Z.ltb_ge; lia).
Qed.

(** ** The identity matrix *)

Lemma index_inj (N r1 c1 r2 c2 : Z) :
  0 <= c1 < N -> 0 <= c2 < N -> r1 * N + c1 = r2 * N + c2 ->
  r1 = r2 /\ c1 = c2.
Proof.
  intros H1 H2 H.
  assert (r1 = r2) as -> by (destruct (Z.lt_trichotomy r1 r2) as [?|[?|?]]; nia).
  lia.
Qed.

Lemma identity_matrix_spec (g : globals) (N : Z) :
  square_context g N -> 0 <= N ->
  exists r, identity_matrix g = Ok r /\ under_context g r /\
    forall row col, 0 <= row < N -> 0 <= col < N ->
      cell r (row * N + col) = if row =? col then 1 else 0.
Proof.
  intros (Hw & _ & He) HN. unfold identity_matrix. rewrite Hw.
  destruct (for_loop_rule
    (fun i (r : matrix) =>
       under_context g r /\
       forall row col, 0 <= row < N -> 0 <= col < N ->
         cell r (row * N + col) = if (row =? col) && (row <? i) then 1 else 0)
    0 N (fun i m => store m (i * N + i) 1) (new_matrix g))
    as (r & Hrun & Hr & Hcells).
  - assumption.
  - split.
    + unfold under_context. rewrite length_new_matrix. nia.
    + intros row col Hrow Hcol.
      replace (row <? 0) with false by (symmetry; apply Z.ltb_ge; lia).
      rewrite andb_false_r. apply cell_new_matrix.
      rewrite He. apply index_bound; lia.
  - intros i r Hi (Hr & Hcells). unfold under_context in Hr.
    pose proof (index_bound N i i Hi Hi) as Hii.
    rewrite store_ok by lia. eexists. split; [reflexivity|]. split.
    + unfold under_context. rewrite length_insert. assumption.
    + intros row col Hrow Hcol.
      pose proof (index_bound N row col Hrow Hcol) as Hrc.
      destruct (Z.eq_dec (row * N + col) (i * N + i)) as [Heq|Hne].
      * destruct (index_inj N row col i i Hcol Hi Heq) as [-> ->].
        rewrite cell_insert_eq by lia.
        rewrite Z.eqb_refl.
        by replace (i <? i + 1) with true by (symmetry; apply Z.ltb_lt; lia).
      * rewrite cell_insert_ne by lia. rewrite Hcells by assumption.
        destruct (row =? col) eqn:Erc; [|reflexivity].
        apply Z.eqb_eq in Erc. subst col.
        assert (row <> i) by (intros ->; contradiction).
        simpl. destruct (row <? i) eqn:E1, (row <? i + 1) eqn:E2;
          try reflexivity;
          [apply Z.ltb_lt in E1; apply Z.ltb_ge in E2
          |apply Z.ltb_ge in E1; apply Z.ltb_lt in E2]; lia.
  - exists r. split; [assumption|]. split; [assumption|].
    intros row col Hrow Hcol. rewrite Hcells by assumption.
    replace (row <? N) with true by (symmetry; apply Z.ltb_lt; lia).
    by rewrite andb_true_r.
Qed.

Lemma wrap32_idemp (z : Z) : wrap32 (wrap32 z) = wrap32 z.
Proof. unfold wrap32. apply Zmod_mod. Qed.

Lemma cell_uint32 (m : matrix) (i : Z) :
  uint32_words m -> 0 <= i < Z.of_nat (length m) -> 0 <= cell m i < 2 ^ 32.
Proof.
  intros Hm Hi. unfold cell.
  apply (Forall_lookup_1 _ _ (Z.to_nat i) _ Hm).
  apply list_lookup_lookup_total_lt. lia.
Qed.

(** ** Products with the identity and the zero matrix *)

Section Neutral.
Variables (N : Z) (m e : matrix).
Hypothesis He : forall row col, 0 <= row < N -> 0 <= col < N ->
  cell e (row * N + col) = if row =? col then 1 else 0.

Lemma dot32_identity_r (row col : Z) (n : nat) :
  0 <= col < N -> Z.of_nat n <= N ->
  dot32 N m e row col n
  = if col <? Z.of_nat n then wrap32 (cell m (row * N + col)) else 0.
Proof.
  intros Hcol. induction n as [|k IH]; intros Hn.
  - by replace (col <? Z.of_nat 0) with false by (symmetry; apply Z.ltb_ge; lia).
  - simpl dot32. rewrite IH by lia. rewrite He by lia.
    destruct (Z.eq_dec (Z.of_nat k) col) as [<-|Hne].
    + rewrite Z.eqb_refl, Z.ltb_irrefl, Z.mul_1_r.
      replace (Z.of_nat k <? Z.of_nat (S k)) with true
        by (symmetry; apply Z.ltb_lt; lia).
      simpl. apply wrap32_idemp.
    + replace (Z.of_nat k =? col) with false by (symmetry; apply Z.eqb_neq; lia).
      rewrite Z.mul_0_r. change (wrap32 0) with 0. rewrite Z.add_0_r.
      replace (col <? Z.of_nat (S k)) with (col <? Z.of_nat k).
      * destruct (col <? Z.of_nat k); [apply wrap32_idemp | reflexivity].
      * destruct (col <? Z.of_nat k) eqn:E1; symmetry;
          [apply Z.ltb_lt in E1; apply Z.ltb_lt | apply Z.ltb_ge in E1; apply Z.ltb_ge];
          lia.
Qed.

Lemma dot32_identity_l (row col : Z) (n : nat) :
  0 <= row < N -> Z.of_nat n <= N ->
  dot32 N e m row col n
  = if row <? Z.of_nat n then wrap32 (cell m (row * N + col)) else 0.
Proof.
  intros Hrow. induction n as [|k IH]; intros Hn.
  - by replace (row <? Z.of_nat 0) with false by (symmetry; apply Z.ltb_ge; lia).
  - simpl dot32. rewrite IH by lia. rewrite He by lia.
    destruct (Z.eq_dec row (Z.of_nat k)) as [->|Hne].
    + rewrite Z.eqb_refl, Z.ltb_irrefl, Z.mul_1_l.
      replace (Z.of_nat k <? Z.of_nat (S k)) with true
        by (symmetry; apply Z.ltb_lt; lia).
      simpl. apply wrap32_idemp.
    + replace (row =? Z.of_nat k) with false by (symmetry; apply Z.eqb_neq; lia).
      rewrite Z.mul_0_l. change (wrap32 0) with 0. rewrite Z.add_0_r.
      replace (row <? Z.of_nat (S k)) with (row <? Z.of_nat k).
      * destruct (row <? Z.of_nat k); [apply wrap32_idemp | reflexivity].
      * destruct (row <? Z.of_nat k) eqn:E1; symmetry;
          [apply Z.ltb_lt in E1; apply Z.ltb_lt | apply Z.ltb_ge in E1; apply Z.ltb_ge];
          lia.
Qed.
End Neutral.

Lemma dot32_zero_l (N : Z) (z m : matrix) (row col : Z) (n : nat) :
  (forall k, 0 <= k < Z.of_nat n -> cell z (row * N + k) = 0) ->
  dot32 N z m row col n = 0.
Proof.
  induction n as [|k IH]; intros Hz; [reflexivity|].
  simpl dot32. rewrite IH by (intros; apply Hz; lia).
  rewrite Hz by lia. reflexivity.
Qed.

Lemma matrix_mul_zero_l (g : globals) (N : Z) (m : matrix) :
  square_context g N -> 0 <= N -> under_context g m ->
  matrix_mul g (new_matrix g) m = Ok (new_matrix g).
Proof.
  intros Hctx HN Hm. pose proof Hctx as (Hw & _ & He).
  assert (under_context g (new_matrix g)) as Hz
    by (unfold under_context; rewrite length_new_matrix; nia).
  destruct (matrix_mul_spec g N (new_matrix g) m Hctx HN Hz Hm)
    as (r & Hrun & Hr & Hcells).
  rewrite Hrun. f_equal. unfold under_context in *.
  apply matrix_ext; [lia|].
  intros c Hc. rewrite Hcells by lia.
  rewrite cell_new_matrix by lia.
  destruct (row_col_bounds N c HN ltac:(lia)) as (HNpos & Hrow & Hcol & Hdm).
  apply dot32_zero_l. intros k Hk. apply cell_new_matrix.
  rewrite He. apply index_bound; lia.
Qed.

(** ** Exponentiation *)

Lemma matrix_pow_zero_exponent (g : globals) (m : matrix) :
  matrix_pow g m 0 = identity_matrix g.
Proof. reflexivity. Qed.




(** ** The fuel suffices

    Whatever the globals and the buffers, no function of the embedding
    runs out of fuel: with a positive stride the column loop of
    [matrix_mul] makes at most [g_elements] steps, with a negative one its
    second read is out of bounds. *)

Lemma load_fuel (m : matrix) (i : Z) : load m i <> OutOfFuel.
Proof. unfold load. destruct (0 <=? i); [destruct (m !! Z.to_nat i)|]; done. Qed.

Lemma store_fuel (m : matrix) (i v : Z) : store m i v <> OutOfFuel.
Proof. unfold store. destruct ((0 <=? i) && (i <? Z.of_nat (length m))); done. Qed.

Lemma load_negative (m : matrix) (i : Z) : i < 0 -> load m i = Undefined.
Proof. intros H. apply load_undefined. lia. Qed.

Section ColumnLoop.
Variables (g : globals) (a b : matrix) (c : Z).

Let column_cond : Z * Z * matrix -> bool :=
  fun '(_, second_column, _) => second_column <? g_elements g.

Let column_body : Z * Z * matrix -> outcome (Z * Z * matrix) :=
  fun '(first_row, second_column, result) =>
    x ← load a first_row;
    y ← load b second_column;
    r ← load result c;
    result ← store result c (wrap32 (r + wrap32 (x * y)));
    Ok (first_row + 1, second_column + g_width g, result).

(** One step either is undefined or advances both indices. *)
Lemma column_body_cases (fr sc : Z) (r : matrix) :
  column_body (fr, sc, r) = Undefined
  \/ 0 <= sc /\ exists r', column_body (fr, sc, r) = Ok (fr + 1, sc + g_width g, r').
Proof.
  unfold column_body.
  pose proof (load_fuel a fr).
  destruct (load a fr) as [x| |]; cbn [mbind outcome_bind]; [|by left|done].
  destruct (Z.lt_ge_cases sc 0) as [Hneg|Hpos].
  { rewrite (load_negative b sc) by assumption. by left. }
  pose proof (load_fuel b sc).
  destruct (load b sc) as [y| |]; cbn [mbind outcome_bind]; [|by left|done].
  pose proof (load_fuel r c).
  destruct (load r c) as [v| |]; cbn [mbind outcome_bind]; [|by left|done].
  pose proof (store_fuel r c (wrap32 (v + wrap32 (x * y)))).
  destruct (store r c _) as [r'| |]; cbn [mbind outcome_bind]; [|by left|done].
  right. split; [assumption|]. by exists r'.
Qed.

Lemma column_loop_forward (fuel : nat) (fr sc : Z) (r : matrix) :
  0 < g_width g -> (Z.to_nat (g_elements g - sc) < fuel)%nat ->
  while_loop fuel column_cond column_body (fr, sc, r) <> OutOfFuel.
Proof.
  intros Hw. revert fr sc r.
  induction fuel as [|fuel IH]; intros fr sc r Hlt; [lia|].
  simpl. destruct (sc <? g_elements g) eqn:Hc; [|discriminate].
  apply Z.ltb_lt in Hc.
  destruct (column_body_cases fr sc r) as [Hu|(Hsc & r' & Hr')].
  - fold (column_body (fr, sc, r)). by rewrite Hu.
  - fold (column_body (fr, sc, r)). rewrite Hr'. simpl. apply IH. lia.
Qed.

Lemma column_loop_backward (fuel : nat) (fr sc : Z) (r : matrix) :
  g_width g < 0 -> sc + g_width g < 0 -> (2 <= fuel)%nat ->
  while_loop fuel column_cond column_body (fr, sc, r) <> OutOfFuel.
Proof.
  intros Hw Hsc Hfuel. destruct fuel as [|[|fuel]]; try lia.
  cbn [while_loop]. unfold column_cond at 1.
  destruct (sc <? g_elements g) eqn:Hc; [|discriminate].
  apply Z.ltb_lt in Hc.
  destruct (column_body_cases fr sc r) as [Hu|(Hsc0 & r' & Hr')].
  - by rewrite Hu.
  - rewrite Hr'. simpl.
    replace (sc + g_width g <? g_elements g) with true
      by (symmetry; apply Z.ltb_lt; lia).
    destruct (column_body_cases (fr + 1) (sc + g_width g) r') as [Hu|(Hsc1 & _)];
      [|lia].
    fold (column_body (fr + 1, sc + g_width g, r')). by rewrite Hu.
Qed.

Lemma mul_column_loop_fuel (fr sc : Z) (r : matrix) :
  g_width g <> 0 -> 0 <= sc -> sc < Z.abs (g_width g) ->
  mul_column_loop g a b c (fr, sc, r) <> OutOfFuel.
Proof.
  intros Hw Hsc Habs. unfold mul_column_loop.
  fold column_cond. fold column_body.
  destruct (Z.lt_ge_cases 0 (g_width g)) as [Hpos|Hneg].
  - apply column_loop_forward; [assumption | lia].
  - destruct (Z.lt_ge_cases sc (g_elements g)) as [Hlt|Hge].
    + apply column_loop_backward; lia.
    + simpl. by replace (sc <? g_elements g) with false
        by (symmetry; apply Z.ltb_ge; lia).
Qed.
End ColumnLoop.

Lemma mul_row_loop_fuel (g : globals) (a b : matrix) (c : Z) (r : matrix) :
  0 <= c -> mul_row_loop g a b c r <> OutOfFuel.
Proof.
  intros Hc. unfold mul_row_loop, ssize_div, ssize_rem.
  destruct (g_width g =? 0) eqn:Hw; [done|]. apply Z.eqb_neq in Hw.
  simpl. destruct (_ <? _); [|done].
  pose proof (mul_column_loop_fuel g a b c
                (Z.quot c (g_width g) * g_width g) (Z.rem c (g_width g)) r Hw)
    as Hloop.
  destruct (mul_column_loop _ _ _ _ _) as [[[fr sc] r']| |]; simpl; try done.
  exfalso. apply Hloop; [| |reflexivity].
  - apply Z.rem_nonneg; lia.
  - pose proof (Z.rem_bound_pos_pos c (Z.abs (g_width g)) ltac:(lia) ltac:(lia)).
    rewrite <- (Z.rem_abs_r c (g_width g)) by assumption. lia.
Qed.

Lemma matrix_mul_fuel (g : globals) (a b : matrix) :
  matrix_mul g a b <> OutOfFuel.
Proof.
  apply for_loop_fuel. intros i t Hi. apply mul_row_loop_fuel. lia.
Qed.

Lemma identity_matrix_fuel (g : globals) : identity_matrix g <> OutOfFuel.
Proof. apply for_loop_fuel. intros i t _. apply store_fuel. Qed.

Lemma matrix_pow_fuel (g : globals) (m : matrix) (exponent : Z) :
  0 <= exponent < 2 ^ 32 -> matrix_pow g m exponent <> OutOfFuel.
Proof.
  intros He. destruct (Z.eq_dec exponent 0) as [->|Hne].
  { rewrite matrix_pow_zero_exponent. apply identity_matrix_fuel. }
  unfold matrix_pow.
  replace (exponent =? 0) with false by (symmetry; apply Z.eqb_neq; lia).
  rewrite (wrap32_small (exponent - 1)) by lia.
  assert (forall fuel c r,
            0 <= c <= 2 ^ 31 - 1 ->
            (Z.to_nat (exponent - 1 - c) < fuel)%nat ->
            while_loop fuel
              (fun '(c, _) => (int_to_uint32 c <? exponent - 1) && negb false)
              (fun '(c, result) =>
                 result ← matrix_mul g result m; c ← int_succ c; Ok (c, result))
              (c, r) <> OutOfFuel) as Hloop.
  { induction fuel as [|fuel IH]; intros c r Hc Hlt; [lia|].
    simpl. rewrite andb_true_r. rewrite int_to_uint32_small by lia.
    destruct (c <? exponent - 1) eqn:Hcond; [|discriminate].
    apply Z.ltb_lt in Hcond.
    pose proof (matrix_mul_fuel g r m).
    destruct (matrix_mul g r m) as [r'| |]; simpl; try done.
    destruct (Z.eq_dec c (2 ^ 31 - 1)) as [->|Hmax].
    - by rewrite int_succ_at_max by lia.
    - rewrite int_succ_below_max by lia. simpl. apply IH; lia. }
  specialize (Hloop (S (Z.to_nat exponent)) 0 (new_matrix g) ltac:(lia) ltac:(lia)).
  destruct (while_loop _ _ _ _) as [[c r]| |]; simpl; done.
Qed.

(** ** Random matrices *)

Lemma with_seed_with_seed (g : globals) (s1 s2 : Z) :
  with_seed (with_seed g s1) s2 = with_seed g s2.
Proof. reflexivity. Qed.

Lemma random_matrix_spec (seed : Z) (g : globals) :
  exists m,
    random_matrix seed g
    = Ok (m, with_seed g (seed_after seed (Z.to_nat (g_elements g))))
    /\ length m = Z.to_nat (g_elements g)
    /\ forall k, 0 <= k < g_elements g -> cell m k = draw seed (Z.to_nat k).
Proof.
  unfold random_matrix, set_seed.
  change (g_elements (with_seed g seed)) with (g_elements g).
  destruct (Z.le_gt_cases 0 (g_elements g)) as [Hpos|Hneg].
  - destruct (for_loop_rule
      (fun i (s : matrix * globals) =>
         length s.1 = Z.to_nat (g_elements g)
         /\ s.2 = with_seed g (seed_after seed (Z.to_nat i))
         /\ forall k, 0 <= k < i -> cell s.1 k = draw seed (Z.to_nat k))
      0 (g_elements g)
      (fun i '(m, g) => let '(r, g) := fast_rand g in m ← store m i r; Ok (m, g))
      (new_matrix g, with_seed g seed))
      as ([m g'] & Hrun & Hlen & Hg' & Hcells).
    + assumption.
    + simpl. split; [apply length_new_matrix|]. split; [reflexivity|]. intros; lia.
    + intros i [m gi] Hi (Hlen & Hgi & Hcells). simpl in Hlen, Hgi, Hcells.
      subst gi. unfold fast_rand. rewrite with_seed_with_seed.
      rewrite store_ok by lia. rewrite bind_Ok.
      eexists. split; [reflexivity|]. simpl.
      assert (Z.to_nat (i + 1) = S (Z.to_nat i)) as Hsucc by lia.
      split; [by rewrite length_insert|]. split.
      * by rewrite Hsucc.
      * intros k Hk. destruct (Z.eq_dec k i) as [->|Hne].
        -- by rewrite cell_insert_eq by lia.
        -- rewrite cell_insert_ne by lia. apply Hcells. lia.
    + simpl in *. subst g'. exists m. auto.
  - rewrite for_loop_empty by lia. exists (new_matrix g).
    split; [|split; [apply length_new_matrix | intros; lia]].
    by replace (Z.to_nat (g_elements g)) with O by lia.
Qed.

Lemma random_matrix_same_elements (seed : Z) (g1 g2 : globals) :
  g_elements g1 = g_elements g2 ->
  exists m,
    random_matrix seed g1
    = Ok (m, with_seed g1 (seed_after seed (Z.to_nat (g_elements g1))))
    /\ random_matrix seed g2
       = Ok (m, with_seed g2 (seed_after seed (Z.to_nat (g_elements g1))))
    /\ length m = Z.to_nat (g_elements g1).
Proof.
  intros Hel.
  destruct (random_matrix_spec seed g1) as (m1 & Hrun1 & Hlen1 & Hcells1).
  destruct (random_matrix_spec seed g2) as (m2 & Hrun2 & Hlen2 & Hcells2).
  exists m1. split; [assumption|]. split; [|assumption].
  rewrite Hrun2, <- Hel. do 2 f_equal.
  apply matrix_ext; [lia|].
  intros i Hi. rewrite Hcells2, Hcells1 by lia. reflexivity.
Qed.

(** ** Scalar addition and the sum *)

Lemma scalar_add_spec (g : globals) (m : matrix) (scalar : Z) :
  under_context g m ->
  exists r, scalar_add g m scalar = Ok r /\ under_context g r /\
    forall c, 0 <= c < g_elements g -> cell r c = wrap32 (cell m c + scalar).
Proof.
  intros Hm. unfold scalar_add, under_context in *.
  destruct (for_loop_rule
    (fun i (r : matrix) =>
       Z.of_nat (length r) = g_elements g /\
       forall c, 0 <= c < i -> cell r c = wrap32 (cell m c + scalar))
    0 (g_elements g)
    (fun c result => v ← load m c; store result c (wrap32 (v + scalar)))
    (new_matrix g))
    as (r & Hrun & Hlen & Hcells).
  - lia.
  - split; [rewrite length_new_matrix; lia | intros; lia].
  - intros i r Hi (Hlen & Hcells).
    rewrite load_cell by lia. rewrite bind_Ok. rewrite store_ok by lia.
    eexists. split; [reflexivity|]. split; [by rewrite length_insert|].
    intros c Hc. destruct (Z.eq_dec c i) as [->|Hne].
    + by rewrite cell_insert_eq by lia.
    + rewrite cell_insert_ne by lia. apply Hcells. lia.
  - exists r. auto.
Qed.

Lemma get_sum_spec (g : globals) (m : matrix) :
  under_context g m ->
  get_sum g m = Ok (wrap32 (prefix_sum m (length m))).
Proof.
  intros Hm. unfold get_sum, under_context in *.
  destruct (for_loop_rule
    (fun i (acc : Z) => acc = wrap32 (prefix_sum m (Z.to_nat i)))
    0 (g_elements g)
    (fun c sum_all_elements => v ← load m c; Ok (wrap32 (sum_all_elements + v)))
    0)
    as (acc & Hrun & Hacc).
  - lia.
  - reflexivity.
  - intros i acc Hi ->. rewrite load_cell by lia. rewrite bind_Ok.
    eexists. split; [reflexivity|].
    replace (Z.to_nat (i + 1)) with (S (Z.to_nat i)) by lia.
    simpl prefix_sum. rewrite Z2Nat.id by lia. apply wrap32_add_l.
  - rewrite Hrun, Hacc. by replace (Z.to_nat (g_elements g)) with (length m) by lia.
Qed.

Lemma prefix_sum_scalar_add (m r : matrix) (scalar : Z) (n : nat) :
  (forall c, 0 <= c < Z.of_nat n -> cell r c = wrap32 (cell m c + scalar)) ->
  wrap32 (prefix_sum r n) = wrap32 (prefix_sum m n + scalar * Z.of_nat n).
Proof.
  induction n as [|k IH]; intros Hcells.
  - simpl. by rewrite Z.mul_0_r.
  - simpl prefix_sum. rewrite Hcells by lia.
    rewrite wrap32_add_r, <- wrap32_add_l, IH by (intros; apply Hcells; lia).
    rewrite wrap32_add_l. f_equal. lia.
Qed.

(** ** Minimum *)

Lemma get_minimum_scan (g : globals) (m : matrix) :
  under_context g m -> 1 <= g_elements g ->
  exists v, get_minimum g m = Ok v
    /\ (exists k, 0 <= k < g_elements g /\ v = cell m k)
    /\ forall k, 0 <= k < g_elements g -> v <= cell m k.
Proof.
  intros Hm Hel. unfold get_minimum, under_context in *.
  rewrite load_cell by lia. rewrite bind_Ok.
  destruct (for_loop_rule
    (fun i (acc : Z) =>
       (exists k, 0 <= k < g_elements g /\ acc = cell m k)
       /\ forall k, 0 <= k < i -> acc <= cell m k)
    0 (g_elements g)
    (fun c matrix_smallest_val =>
       v ← load m c;
       Ok (if v <? matrix_smallest_val then v else matrix_smallest_val))
    (cell m 0))
    as (v & Hrun & Hin & Hmin).
  - lia.
  - split; [exists 0; split; [lia | reflexivity] | intros; lia].
  - intros i acc Hi (Hin & Hmin). rewrite load_cell by lia. rewrite bind_Ok.
    eexists. split; [reflexivity|].
    destruct (cell m i <? acc) eqn:Hlt.
    + apply Z.ltb_lt in Hlt. split; [exists i; split; [lia | reflexivity]|].
      intros k Hk. destruct (Z.eq_dec k i) as [->|Hne]; [lia|].
      specialize (Hmin k ltac:(lia)). lia.
    + apply Z.ltb_ge in Hlt. split; [assumption|].
      intros k Hk. destruct (Z.eq_dec k i) as [->|Hne]; [lia|].
      apply Hmin. lia.
  - exists v. auto.
Qed.

(** * The contract *)

(** C1. Under a context of order N >= 1, [matrix_mul] applied to two N-by-N
    matrices returns a matrix of N*N words whose word at every linear index
    [c], with row [c / width] and column [c mod width], is the sum over [k]
    in [0, width) of [a[row*width + k] * b[k*width + col]], every addition
    and multiplication being taken modulo 2^32.  At order 2 the product of
    [1,2,3,4] and [5,6,7,8] is [19,22,43,50]. *)
Theorem matrix_mul_correct (g : globals) (N : Z) (a b : matrix)
    (Hctx : square_context g N) (HN : 1 <= N)
    (Ha : under_context g a) (Hb : under_context g b) :
  (exists r, matrix_mul g a b = Ok r /\ under_context g r /\
     forall c, 0 <= c < g_elements g ->
       cell r c = dot32 (g_width g) a b (c / g_width g) (c mod g_width g)
                    (Z.to_nat (g_width g)))
  /\ matrix_mul order2 [1; 2; 3; 4] [5; 6; 7; 8] = Ok [19; 22; 43; 50].
Proof.
  split; [|vm_compute; reflexivity].
  destruct (matrix_mul_spec g N a b Hctx ltac:(lia) Ha Hb) as (r & Hrun & Hr & Hcells).
  destruct Hctx as (Hw & _ & He). rewrite Hw, He.
  exists r. auto.
Qed.

Lemma matrix_mul_correct_witness :
  exists r, matrix_mul order3 [1; 2; 3; 4; 5; 6; 7; 8; 9] [9; 8; 7; 6; 5; 4; 3; 2; 1] = Ok r
    /\ cell r 5 = 4 * 7 + 5 * 4 + 6 * 1.
Proof.
  destruct (matrix_mul_correct order3 3
              [1; 2; 3; 4; 5; 6; 7; 8; 9] [9; 8; 7; 6; 5; 4; 3; 2; 1])
    as [(r & Hrun & _ & Hcells) _].
  - repeat split.
  - lia.
  - reflexivity.
  - reflexivity.
  - exists r. split; [exact Hrun|].
    rewrite (Hcells 5) by (simpl; lia). vm_compute. reflexivity.
Defined.

(** C2 (evaluation of the code). At order 2 with m = [1,2,3,4],
    [matrix_pow m 4] returns the zero matrix, whereas the four-fold product
    of [m] computed with [matrix_mul] is [199,290,435,634]; and
    [matrix_pow m 1] returns the zero matrix rather than [m]. *)
Theorem matrix_pow_order2_returns_zero :
  matrix_pow order2 [1; 2; 3; 4] 4 = Ok [0; 0; 0; 0]
  /\ (p2 ← matrix_mul order2 [1; 2; 3; 4] [1; 2; 3; 4];
      p3 ← matrix_mul order2 p2 [1; 2; 3; 4];
      matrix_mul order2 p3 [1; 2; 3; 4]) = Ok [199; 290; 435; 634]
  /\ matrix_pow order2 [1; 2; 3; 4] 1 = Ok [0; 0; 0; 0].
Proof. repeat split; vm_compute; reflexivity. Qed.




(** C4. [matrix_pow m 0] returns the identity matrix: zero everywhere but
    on the diagonal, where it is 1. Nothing is assumed of [m]. *)
Theorem matrix_pow_exponent_zero (g : globals) (N : Z) (m : matrix)
    (Hctx : square_context g N) (HN : 0 <= N) :
  exists r, matrix_pow g m 0 = Ok r /\ identity_matrix g = Ok r /\
    under_context g r /\
    forall row col, 0 <= row < N -> 0 <= col < N ->
      cell r (row * N + col) = if row =? col then 1 else 0.
Proof.
  destruct (identity_matrix_spec g N Hctx HN) as (r & Hrun & Hr & Hcells).
  exists r. rewrite matrix_pow_zero_exponent. auto.
Qed.

Lemma matrix_pow_exponent_zero_witness :
  exists r, matrix_pow order3 [7; 7; 7] 0 = Ok r /\ cell r 4 = 1 /\ cell r 5 = 0.
Proof.
  destruct (matrix_pow_exponent_zero order3 3 [7; 7; 7])
    as (r & Hrun & _ & _ & Hcells).
  - repeat split.
  - lia.
  - exists r. split; [exact Hrun|]. split.
    + apply (Hcells 1 1); lia.
    + apply (Hcells 1 2); lia.
Defined.




(** C6. For every order N >= 1 and every N-by-N matrix [m] of [uint32_t]
    words, [matrix_mul m (identity_matrix ())] and
    [matrix_mul (identity_matrix ()) m] both return [m]. *)
Theorem identity_matrix_neutral (g : globals) (N : Z) (m : matrix)
    (Hctx : square_context g N) (HN : 1 <= N)
    (Hm : under_context g m) (Hwords : uint32_words m) :
  exists e, identity_matrix g = Ok e /\
    matrix_mul g m e = Ok m /\ matrix_mul g e m = Ok m.
Proof.
  assert (0 <= N) as HN0 by lia.
  destruct (identity_matrix_spec g N Hctx HN0) as (e & Hid & He & Hcells).
  exists e. split; [assumption|].
  pose proof Hctx as (Hw & _ & Hel). unfold under_context in *.
  assert (forall c, 0 <= c < N * N -> wrap32 (cell m c) = cell m c) as Hwrap
    by (intros c Hc; apply wrap32_small, cell_uint32; [assumption | lia]).
  split.
  - destruct (matrix_mul_spec g N m e Hctx HN0 Hm He) as (r & Hrun & Hr & Hprod).
    rewrite Hrun. f_equal. unfold under_context in *.
    apply matrix_ext; [lia|]. intros c Hc. rewrite Hprod by lia.
    destruct (row_col_bounds N c HN0 ltac:(lia)) as (_ & Hrow & Hcol & Hdm).
    unfold product_cell. rewrite (dot32_identity_r N m e Hcells) by lia.
    replace (c mod N <? Z.of_nat (Z.to_nat N)) with true
      by (symmetry; apply Z.ltb_lt; lia).
    rewrite <- Hdm. apply Hwrap. lia.
  - destruct (matrix_mul_spec g N e m Hctx HN0 He Hm) as (r & Hrun & Hr & Hprod).
    rewrite Hrun. f_equal. unfold under_context in *.
    apply matrix_ext; [lia|]. intros c Hc. rewrite Hprod by lia.
    destruct (row_col_bounds N c HN0 ltac:(lia)) as (_ & Hrow & Hcol & Hdm).
    unfold product_cell. rewrite (dot32_identity_l N m e Hcells) by lia.
    replace (c / N <? Z.of_nat (Z.to_nat N)) with true
      by (symmetry; apply Z.ltb_lt; lia).
    rewrite <- Hdm. apply Hwrap. lia.
Qed.

Lemma identity_matrix_neutral_witness :
  exists e, identity_matrix order2 = Ok e /\
    matrix_mul order2 [1; 2; 3; 4] e = Ok [1; 2; 3; 4] /\
    matrix_mul order2 e [1; 2; 3; 4] = Ok [1; 2; 3; 4].
Proof.
  apply (identity_matrix_neutral order2 2 [1; 2; 3; 4]).
  - repeat split.
  - lia.
  - reflexivity.
  - repeat constructor; lia.
Defined.

(** C7. Random-matrix construction reseeds the generator before drawing:
    its matrix is a function of the seed argument and of the dimension
    context alone.  A second call with the same seed, made in the state left
    by the first, returns the same matrix, and so does a call made in any
    state holding the same dimension context; two successive calls of
    [random_matrix 42] at order 3 return the same 9 words. *)
Theorem random_matrix_deterministic (seed : Z) (g g2 : globals)
    (Hdim : same_dimensions g g2) :
  (exists m g' g2',
     random_matrix seed g = Ok (m, g')
     /\ random_matrix seed g' = Ok (m, g')
     /\ random_matrix seed g2 = Ok (m, g2'))
  /\ (exists m g',
        random_matrix 42 order3 = Ok (m, g')
        /\ random_matrix 42 g' = Ok (m, g')
        /\ length m = 9%nat).
Proof.
  split.
  - destruct Hdim as (_ & _ & Hel).
    destruct (random_matrix_same_elements seed g g2 Hel) as (m & Hrun & Hrun2 & _).
    set (g' := with_seed g (seed_after seed (Z.to_nat (g_elements g)))) in *.
    destruct (random_matrix_same_elements seed g g' eq_refl) as (m' & Hrun' & Hrun'' & _).
    rewrite Hrun in Hrun'. injection Hrun' as <-.
    exists m, g'. eexists. split; [exact Hrun|]. split; [|exact Hrun2].
    rewrite Hrun''. reflexivity.
  - exists [175; 400; 17869; 30056; 16083; 12879; 8016; 7644; 15809],
      (with_seed order3 1036078381).
    repeat split; vm_compute; reflexivity.
Qed.

Lemma random_matrix_deterministic_witness :
  exists m g' g2',
    random_matrix 7 order2 = Ok (m, g')
    /\ random_matrix 7 g' = Ok (m, g')
    /\ random_matrix 7 (set_seed 99 order2) = Ok (m, g2').
Proof.
  apply (random_matrix_deterministic 7 order2 (set_seed 99 order2)).
  repeat split.
Defined.

(** C8. [get_sum (scalar_add m s)] is [get_sum m + s * element_count],
    modulo 2^32. *)
Theorem get_sum_scalar_add (g : globals) (m : matrix) (scalar : Z)
    (Hm : under_context g m) :
  exists r t, scalar_add g m scalar = Ok r /\ get_sum g m = Ok t /\
    get_sum g r = Ok (wrap32 (t + scalar * g_elements g)).
Proof.
  destruct (scalar_add_spec g m scalar Hm) as (r & Hrun & Hr & Hcells).
  exists r, (wrap32 (prefix_sum m (length m))).
  split; [assumption|]. split; [by apply get_sum_spec|].
  rewrite (get_sum_spec g r Hr). f_equal. unfold under_context in *.
  rewrite (prefix_sum_scalar_add m r scalar) by (intros; apply Hcells; lia).
  rewrite wrap32_add_l.
  replace (length r) with (length m) by lia. by rewrite Hm.
Qed.

Lemma get_sum_scalar_add_witness :
  exists r t, scalar_add order2 [3; 1; 2; 4294967295] 7 = Ok r /\
    get_sum order2 [3; 1; 2; 4294967295] = Ok t /\
    get_sum order2 r = Ok (wrap32 (t + 7 * g_elements order2)).
Proof.
  apply (get_sum_scalar_add order2 [3; 1; 2; 4294967295] 7).
  reflexivity.
Defined.

(** C9. [reversed m] returns a matrix whose word at every linear index [i]
    in [0, element_count) is the word of [m] at index
    [element_count - 1 - i]. *)
Theorem reversed_mirror (g : globals) (m : matrix) (Hm : under_context g m) :
  exists r, reversed g m = Ok r /\ under_context g r /\
    forall i, 0 <= i < g_elements g ->
      cell r i = cell m (g_elements g - 1 - i).
Proof.
  unfold reversed, under_context in *.
  destruct (for_loop_rule
    (fun i (r : matrix) =>
       Z.of_nat (length r) = g_elements g /\
       forall k, 0 <= k < i -> cell r k = cell m (g_elements g - 1 - k))
    0 (g_elements g)
    (fun i result => v ← load m (g_elements g - 1 - i); store result i v)
    (new_matrix g))
    as (r & Hrun & Hlen & Hcells).
  - lia.
  - split; [rewrite length_new_matrix; lia | intros; lia].
  - intros i r Hi (Hlen & Hcells).
    rewrite load_cell by lia. rewrite bind_Ok. rewrite store_ok by lia.
    eexists. split; [reflexivity|]. split; [by rewrite length_insert|].
    intros k Hk. destruct (Z.eq_dec k i) as [->|Hne].
    + by rewrite cell_insert_eq by lia.
    + rewrite cell_insert_ne by lia. apply Hcells. lia.
  - exists r. auto.
Qed.

Lemma reversed_mirror_witness :
  exists r, reversed order2 [1; 2; 3; 4] = Ok r /\ cell r 1 = 3.
Proof.
  destruct (reversed_mirror order2 [1; 2; 3; 4]) as (r & Hrun & _ & Hcells).
  - reflexivity.
  - exists r. split; [exact Hrun|]. apply (Hcells 1). simpl. lia.
Defined.

(** C10. With at least one element, [get_minimum m] performs only in-bounds
    reads and returns a word that occurs in [m] and is no greater than any
    word of [m]; with no element, its first read [m[0]] is out of bounds and
    the call is undefined. *)
Theorem get_minimum_correct (g : globals) (m : matrix) (Hm : under_context g m) :
  (1 <= g_elements g ->
   exists v, get_minimum g m = Ok v /\ In v m /\ forall x, In x m -> v <= x)
  /\ (g_elements g = 0 -> get_minimum g m = Undefined).
Proof.
  split.
  - intros Hel.
    destruct (get_minimum_scan g m Hm Hel) as (v & Hrun & (k & Hk & ->) & Hmin).
    unfold under_context in Hm.
    exists (cell m k). split; [assumption|]. split.
    + apply list_elem_of_In. unfold cell. apply list_elem_of_lookup_total_2. lia.
    + intros x Hx. apply list_elem_of_In, list_elem_of_lookup_total_1 in Hx.
      destruct Hx as (i & Hi & <-).
      specialize (Hmin (Z.of_nat i) ltac:(lia)).
      unfold cell in Hmin at 2. by rewrite Nat2Z.id in Hmin.
  - intros Hel. unfold under_context in Hm.
    destruct m as [|x m]; [reflexivity | simpl in Hm; lia].
Qed.

Lemma get_minimum_correct_witness :
  (exists v, get_minimum order2 [3; 1; 2; 5] = Ok v /\ v = 1)
  /\ get_minimum (set_dimensions 0 initial_globals) [] = Undefined.
Proof.
  split.
  - destruct (get_minimum_correct order2 [3; 1; 2; 5] eq_refl) as [Hmin _].
    destruct Hmin as (v & Hrun & Hin & Hle); [simpl; lia|].
    exists v. split; [exact Hrun|].
    pose proof (Hle 1 ltac:(simpl; tauto)) as Hle1.
    simpl in Hin. lia.
  - destruct (get_minimum_correct (set_dimensions 0 initial_globals) [] eq_refl)
      as [_ Hundef].
    apply Hundef. reflexivity.
Defined.

(** * Further properties *)

(** ** Loops that fail, loops that fill a buffer *)

Section ForUndefined.
Context {St : Type}.

(** A counted loop whose body is undefined at iteration [k], and defined
    before it, is undefined. *)
Lemma for_loop_undefined (Inv : Z -> St -> Prop) (lo hi k : Z)
    (body : Z -> St -> outcome St) (s : St) :
  lo <= k < hi -> Inv lo s ->
  (forall i t, lo <= i < k -> Inv i t ->
     exists t', body i t = Ok t' /\ Inv (i + 1) t') ->
  (forall t, Inv k t -> body k t = Undefined) ->
  for_loop lo hi body s = Undefined.
Proof.
  intros Hk Hinv Hstep Hfail. unfold for_loop.
  assert (forall fuel i t, lo <= i <= k -> Inv i t ->
            (Z.to_nat (hi - i) < fuel)%nat ->
            while_loop fuel (fun '(i, _) => i <? hi)
              (fun '(i, s) => s' ← body i s; Ok (i + 1, s')) (i, t)
            = Undefined) as Hloop.
  { induction fuel as [|fuel IH]; intros i t Hi Ht Hlt; [lia|].
    simpl. replace (i <? hi) with true by (symmetry; apply Z.ltb_lt; lia).
    destruct (Z.eq_dec i k) as [->|Hne].
    - by rewrite Hfail.
    - destruct (Hstep i t ltac:(lia) Ht) as (t' & Hb & Ht').
      rewrite Hb. simpl. apply IH; [lia | assumption | lia]. }
  by rewrite Hloop by (assumption || lia).
Qed.
End ForUndefined.

(** A loop that stores [f i] at every index [i] of a buffer of [E] words. *)
Lemma fill_loop (E : Z) (f : Z -> Z) (body : Z -> matrix -> outcome matrix)
    (r0 : matrix) :
  Z.of_nat (length r0) = E ->
  (forall i r, 0 <= i < E -> Z.of_nat (length r) = E ->
     body i r = store r i (f i)) ->
  exists r, for_loop 0 E body r0 = Ok r /\ Z.of_nat (length r) = E /\
    forall i, 0 <= i < E -> cell r i = f i.
Proof.
  intros Hlen Hbody.
  destruct (for_loop_rule
    (fun i (r : matrix) =>
       Z.of_nat (length r) = E /\ forall k, 0 <= k < i -> cell r k = f k)
    0 E body r0) as (r & Hrun & Hr & Hcells).
  - lia.
  - split; [assumption | intros; lia].
  - intros i r Hi (Hr & Hcells). rewrite Hbody by assumption.
    rewrite store_ok by lia. eexists. split; [reflexivity|].
    split; [by rewrite length_insert|].
    intros k Hk. destruct (Z.eq_dec k i) as [->|Hne].
    + by rewrite cell_insert_eq by lia.
    + rewrite cell_insert_ne by lia. apply Hcells. lia.
  - exists r. auto.
Qed.

Lemma new_matrix_under_context (g : globals) :
  0 <= g_elements g -> under_context g (new_matrix g).
Proof. intros H. unfold under_context. rewrite length_new_matrix. lia. Qed.

Lemma under_context_nonneg (g : globals) (m : matrix) :
  under_context g m -> 0 <= g_elements g.
Proof. unfold under_context. lia. Qed.

(** Two matrices under one context with the same cells are equal. *)
Lemma matrix_ext_context (g : globals) (m1 m2 : matrix) :
  under_context g m1 -> under_context g m2 ->
  (forall i, 0 <= i < g_elements g -> cell m1 i = cell m2 i) -> m1 = m2.
Proof.
  unfold under_context. intros H1 H2 Hcells.
  apply matrix_ext; [lia|]. intros i Hi. apply Hcells. lia.
Qed.

(** ** Cell-wise description of the elementwise operations *)

Section Elementwise.
Variables (g : globals) (m : matrix).
Hypothesis Hm : under_context g m.

Lemma cloned_cells :
  exists r, cloned g m = Ok r /\ under_context g r /\
    forall i, 0 <= i < g_elements g -> cell r i = cell m i.
Proof.
  apply (fill_loop (g_elements g) (fun i => cell m i)).
  - apply new_matrix_under_context, (under_context_nonneg g m Hm).
  - intros i r Hi Hr. unfold under_context in Hm. by rewrite load_cell by lia.
Qed.

Lemma reversed_cells :
  exists r, reversed g m = Ok r /\ under_context g r /\
    forall i, 0 <= i < g_elements g -> cell r i = cell m (g_elements g - 1 - i).
Proof.
  apply (fill_loop (g_elements g) (fun i => cell m (g_elements g - 1 - i))).
  - apply new_matrix_under_context, (under_context_nonneg g m Hm).
  - intros i r Hi Hr. unfold under_context in Hm. by rewrite load_cell by lia.
Qed.

Lemma scalar_mul_cells (scalar : Z) :
  exists r, scalar_mul g m scalar = Ok r /\ under_context g r /\
    forall i, 0 <= i < g_elements g -> cell r i = wrap32 (cell m i * scalar).
Proof.
  apply (fill_loop (g_elements g) (fun i => wrap32 (cell m i * scalar))).
  - apply new_matrix_under_context, (under_context_nonneg g m Hm).
  - intros i r Hi Hr. unfold under_context in Hm. by rewrite load_cell by lia.
Qed.

Lemma matrix_add_cells (b : matrix) :
  under_context g b ->
  exists r, matrix_add g m b = Ok r /\ under_context g r /\
    forall i, 0 <= i < g_elements g -> cell r i = wrap32 (cell m i + cell b i).
Proof.
  intros Hb.
  apply (fill_loop (g_elements g) (fun i => wrap32 (cell m i + cell b i))).
  - apply new_matrix_under_context, (under_context_nonneg g m Hm).
  - intros i r Hi Hr. unfold under_context in Hm, Hb.
    rewrite (load_cell m) by lia. rewrite bind_Ok.
    by rewrite (load_cell b) by lia.
Qed.
End Elementwise.

Lemma uniform_matrix_fill (g : globals) (value : Z) :
  0 <= g_elements g ->
  exists r, uniform_matrix g value = Ok r /\ under_context g r /\
    forall i, 0 <= i < g_elements g -> cell r i = value.
Proof.
  intros HE. apply (fill_loop (g_elements g) (fun _ => value)).
  - by apply new_matrix_under_context.
  - reflexivity.
Qed.

(** ** Sums modulo 2^32 *)

Lemma wrap32_mul_l (x y : Z) : wrap32 (wrap32 x * y) = wrap32 (x * y).
Proof. unfold wrap32. apply Zmult_mod_idemp_l. Qed.

Lemma wrap32_mul_r (x y : Z) : wrap32 (x * wrap32 y) = wrap32 (x * y).
Proof. unfold wrap32. apply Zmult_mod_idemp_r. Qed.

Lemma wrap32_add_cong (x x' y y' : Z) :
  wrap32 x = wrap32 x' -> wrap32 y = wrap32 y' -> wrap32 (x + y) = wrap32 (x' + y').
Proof.
  intros Hx Hy.
  rewrite <- wrap32_add_l, <- wrap32_add_r, Hx, Hy, wrap32_add_l, wrap32_add_r.
  reflexivity.
Qed.

Lemma wrap32_mul_cong (x x' y y' : Z) :
  wrap32 x = wrap32 x' -> wrap32 y = wrap32 y' -> wrap32 (x * y) = wrap32 (x' * y').
Proof.
  intros Hx Hy.
  rewrite <- wrap32_mul_l, <- wrap32_mul_r, Hx, Hy, wrap32_mul_l, wrap32_mul_r.
  reflexivity.
Qed.

Lemma sum_upto_ext (f h : nat -> Z) (n : nat) :
  (forall k, (k < n)%nat -> f k = h k) -> sum_upto f n = sum_upto h n.
Proof.
  induction n as [|n IH]; intros H; [reflexivity|].
  simpl. rewrite IH by (intros; apply H; lia). by rewrite H by lia.
Qed.

Lemma sum_upto_wrap (f h : nat -> Z) (n : nat) :
  (forall k, (k < n)%nat -> wrap32 (f k) = wrap32 (h k)) ->
  wrap32 (sum_upto f n) = wrap32 (sum_upto h n).
Proof.
  induction n as [|n IH]; intros H; [reflexivity|].
  simpl. apply wrap32_add_cong; [apply IH; intros; apply H; lia | apply H; lia].
Qed.

Lemma sum_upto_add (f h : nat -> Z) (n : nat) :
  sum_upto (fun k => f k + h k) n = sum_upto f n + sum_upto h n.
Proof. induction n as [|n IH]; simpl; lia. Qed.

Lemma sum_upto_scale (s : Z) (f : nat -> Z) (n : nat) :
  sum_upto (fun k => s * f k) n = s * sum_upto f n.
Proof. induction n as [|n IH]; simpl; lia. Qed.

Lemma sum_upto_const (v : Z) (n : nat) :
  sum_upto (fun _ => v) n = v * Z.of_nat n.
Proof. induction n as [|n IH]; simpl sum_upto; lia. Qed.

Lemma sum_upto_shift (f : nat -> Z) (n : nat) :
  sum_upto f (S n) = f O + sum_upto (fun k => f (S k)) n.
Proof.
  induction n as [|n IH]; [simpl; lia|].
  change (sum_upto f (S (S n))) with (sum_upto f (S n) + f (S n)).
  rewrite IH. simpl. lia.
Qed.

Lemma sum_upto_rev (f : nat -> Z) (n : nat) :
  sum_upto (fun k => f (n - 1 - k)%nat) n = sum_upto f n.
Proof.
  revert f. induction n as [|n IH]; intros f; [reflexivity|].
  rewrite (sum_upto_shift f n), <- (IH (fun k => f (S k))).
  change (sum_upto (fun k => f (S n - 1 - k)%nat) n + f (S n - 1 - n)%nat
          = f O + sum_upto (fun k => f (S (n - 1 - k))) n).
  replace (S n - 1 - n)%nat with O by lia.
  rewrite Z.add_comm. f_equal.
  apply sum_upto_ext. intros k Hk. f_equal. lia.
Qed.

Lemma sum_upto_app (f : nat -> Z) (n p : nat) :
  sum_upto f (n + p) = sum_upto f n + sum_upto (fun k => f (n + k)%nat) p.
Proof.
  induction p as [|p IH]; [rewrite Nat.add_0_r; simpl; lia|].
  rewrite Nat.add_succ_r. simpl. rewrite IH. lia.
Qed.

(** The sum of an indicator of one index. *)
Lemma sum_upto_indicator (j n : nat) :
  sum_upto (fun k => if Nat.eqb k j then 1 else 0) n
  = if Nat.ltb j n then 1 else 0.
Proof.
  induction n as [|n IH]; [reflexivity|].
  simpl sum_upto. rewrite IH.
  destruct (Nat.eqb_spec n j) as [->|Hne].
  - rewrite Nat.ltb_irrefl. by replace (j <? S j)%nat with true
      by (symmetry; apply Nat.ltb_lt; lia).
  - destruct (Nat.ltb_spec j n), (Nat.ltb_spec j (S n)); lia.
Qed.

Lemma prefix_sum_sum_upto (m : matrix) (n : nat) :
  prefix_sum m n = sum_upto (fun k => cell m (Z.of_nat k)) n.
Proof. induction n as [|n IH]; simpl; congruence. Qed.

(** [get_sum] of a matrix whose cells are known modulo 2^32. *)
Lemma get_sum_cells (g : globals) (r : matrix) (f : nat -> Z) :
  under_context g r ->
  (forall k, 0 <= Z.of_nat k < g_elements g ->
     wrap32 (cell r (Z.of_nat k)) = wrap32 (f k)) ->
  get_sum g r = Ok (wrap32 (sum_upto f (Z.to_nat (g_elements g)))).
Proof.
  intros Hr Hcells. rewrite (get_sum_spec g r Hr). unfold under_context in Hr.
  rewrite prefix_sum_sum_upto. f_equal.
  replace (Z.to_nat (g_elements g)) with (length r) by lia.
  apply sum_upto_wrap. intros k Hk. apply Hcells. lia.
Qed.

Lemma get_sum_sum_upto (g : globals) (m : matrix) :
  under_context g m ->
  get_sum g m
  = Ok (wrap32 (sum_upto (fun k => cell m (Z.of_nat k)) (Z.to_nat (g_elements g)))).
Proof. intros Hm. by apply get_sum_cells. Qed.

(** ** Copies, mirrors and elementwise arithmetic *)

(** X1. [cloned m] returns a matrix equal to [m], word for word. *)
Theorem cloned_copy (g : globals) (m : matrix) (Hm : under_context g m) :
  cloned g m = Ok m.
Proof.
  destruct (cloned_cells g m Hm) as (r & Hrun & Hr & Hcells).
  rewrite Hrun. f_equal. by apply (matrix_ext_context g).
Qed.

Lemma cloned_copy_witness : cloned order2 [9; 8; 7; 6] = Ok [9; 8; 7; 6].
Proof. apply (cloned_copy order2 [9; 8; 7; 6]). reflexivity. Defined.

(** X2. Reversing twice gives the matrix back:
    [reversed (reversed m)] is [m]. *)
Theorem reversed_involutive (g : globals) (m : matrix) (Hm : under_context g m) :
  exists r, reversed g m = Ok r /\ reversed g r = Ok m.
Proof.
  destruct (reversed_cells g m Hm) as (r & Hrun & Hr & Hcells).
  destruct (reversed_cells g r Hr) as (r2 & Hrun2 & Hr2 & Hcells2).
  exists r. split; [assumption|]. rewrite Hrun2. f_equal.
  apply (matrix_ext_context g); try assumption.
  intros i Hi. rewrite Hcells2, Hcells by lia. f_equal. lia.
Qed.

Lemma reversed_involutive_witness :
  exists r, reversed order2 [1; 2; 3; 4] = Ok r /\ reversed order2 r = Ok [1; 2; 3; 4].
Proof. apply (reversed_involutive order2 [1; 2; 3; 4]). reflexivity. Defined.

(** X3. Reversal keeps the sum: [get_sum (reversed m)] is [get_sum m]. *)
Theorem get_sum_reversed (g : globals) (m : matrix) (Hm : under_context g m) :
  exists r t, reversed g m = Ok r /\ get_sum g r = Ok t /\ get_sum g m = Ok t.
Proof.
  destruct (reversed_cells g m Hm) as (r & Hrun & Hr & Hcells).
  exists r. eexists. split; [assumption|]. split; [|by apply get_sum_sum_upto].
  rewrite (get_sum_spec g r Hr), prefix_sum_sum_upto. unfold under_context in *.
  replace (length r) with (Z.to_nat (g_elements g)) by lia.
  rewrite <- (sum_upto_rev (fun k => cell m (Z.of_nat k))). do 2 f_equal.
  apply sum_upto_ext. intros k Hk. rewrite Hcells by lia. f_equal. lia.
Qed.

Lemma get_sum_reversed_witness :
  exists r t, reversed order2 [1; 2; 3; 4] = Ok r /\ get_sum order2 r = Ok t /\
    get_sum order2 [1; 2; 3; 4] = Ok t.
Proof. apply (get_sum_reversed order2 [1; 2; 3; 4]). reflexivity. Defined.

(** X4. Adding [s] and then [t] is adding [s + t] modulo 2^32. *)
Theorem scalar_add_compose (g : globals) (m : matrix) (s t : Z)
    (Hm : under_context g m) :
  exists r1 r2, scalar_add g m s = Ok r1 /\ scalar_add g r1 t = Ok r2 /\
    scalar_add g m (wrap32 (s + t)) = Ok r2.
Proof.
  destruct (scalar_add_spec g m s Hm) as (r1 & Hrun1 & Hr1 & Hcells1).
  destruct (scalar_add_spec g r1 t Hr1) as (r2 & Hrun2 & Hr2 & Hcells2).
  destruct (scalar_add_spec g m (wrap32 (s + t)) Hm) as (r3 & Hrun3 & Hr3 & Hcells3).
  exists r1, r2. split; [assumption|]. split; [assumption|].
  rewrite Hrun3. f_equal. apply (matrix_ext_context g); try assumption.
  intros i Hi. rewrite Hcells3, Hcells2, Hcells1 by lia.
  rewrite wrap32_add_l, wrap32_add_r. f_equal. lia.
Qed.

Lemma scalar_add_compose_witness :
  exists r1 r2, scalar_add order2 [1; 2; 3; 4294967295] 4294967290 = Ok r1 /\
    scalar_add order2 r1 10 = Ok r2 /\
    scalar_add order2 [1; 2; 3; 4294967295] (wrap32 (4294967290 + 10)) = Ok r2.
Proof.
  apply (scalar_add_compose order2 [1; 2; 3; 4294967295] 4294967290 10).
  reflexivity.
Defined.

(** X5. On a matrix of [uint32_t] words, adding 0 and multiplying by 1
    both return the matrix itself. *)
Theorem scalar_neutral (g : globals) (m : matrix)
    (Hm : under_context g m) (Hwords : uint32_words m) :
  scalar_add g m 0 = Ok m /\ scalar_mul g m 1 = Ok m.
Proof.
  assert (forall i, 0 <= i < g_elements g -> wrap32 (cell m i) = cell m i) as Hwrap.
  { intros i Hi. apply wrap32_small, cell_uint32; [assumption|].
    unfold under_context in Hm. lia. }
  split.
  - destruct (scalar_add_spec g m 0 Hm) as (r & Hrun & Hr & Hcells).
    rewrite Hrun. f_equal. apply (matrix_ext_context g); try assumption.
    intros i Hi. rewrite Hcells, Z.add_0_r by lia. by apply Hwrap.
  - destruct (scalar_mul_cells g m Hm 1) as (r & Hrun & Hr & Hcells).
    rewrite Hrun. f_equal. apply (matrix_ext_context g); try assumption.
    intros i Hi. rewrite Hcells, Z.mul_1_r by lia. by apply Hwrap.
Qed.

Lemma scalar_neutral_witness :
  scalar_add order2 [1; 2; 3; 4] 0 = Ok [1; 2; 3; 4]
  /\ scalar_mul order2 [1; 2; 3; 4] 1 = Ok [1; 2; 3; 4].
Proof.
  apply (scalar_neutral order2 [1; 2; 3; 4]).
  - reflexivity.
  - repeat constructor; lia.
Defined.

(** X6. [get_sum (scalar_mul m s)] is [s * get_sum m] modulo 2^32, and
    multiplying by 0 gives the zero matrix. *)
Theorem get_sum_scalar_mul (g : globals) (m : matrix) (scalar : Z)
    (Hm : under_context g m) :
  (exists r t, scalar_mul g m scalar = Ok r /\ get_sum g m = Ok t /\
     get_sum g r = Ok (wrap32 (scalar * t)))
  /\ scalar_mul g m 0 = Ok (new_matrix g).
Proof.
  split.
  - destruct (scalar_mul_cells g m Hm scalar) as (r & Hrun & Hr & Hcells).
    exists r. eexists. split; [assumption|].
    split; [by apply get_sum_sum_upto|].
    rewrite (get_sum_cells g r (fun k => scalar * cell m (Z.of_nat k)) Hr).
    + rewrite sum_upto_scale, wrap32_mul_r. reflexivity.
    + intros k Hk. rewrite Hcells by lia. rewrite wrap32_idemp. f_equal. lia.
  - destruct (scalar_mul_cells g m Hm 0) as (r & Hrun & Hr & Hcells).
    rewrite Hrun. f_equal. pose proof (under_context_nonneg g m Hm).
    apply (matrix_ext_context g); try assumption.
    + by apply new_matrix_under_context.
    + intros i Hi. rewrite Hcells, cell_new_matrix, Z.mul_0_r by lia. reflexivity.
Qed.

Lemma get_sum_scalar_mul_witness :
  (exists r t, scalar_mul order2 [1; 2; 3; 4294967295] 3 = Ok r /\
     get_sum order2 [1; 2; 3; 4294967295] = Ok t /\
     get_sum order2 r = Ok (wrap32 (3 * t)))
  /\ scalar_mul order2 [1; 2; 3; 4294967295] 0 = Ok (new_matrix order2).
Proof. apply (get_sum_scalar_mul order2 [1; 2; 3; 4294967295] 3). reflexivity. Defined.

(** X7. [matrix_add] is commutative, and the zero matrix is neutral for it
    on matrices of [uint32_t] words. *)
Theorem matrix_add_comm_zero (g : globals) (a b : matrix)
    (Ha : under_context g a) (Hb : under_context g b) (Hwords : uint32_words a) :
  (exists r, matrix_add g a b = Ok r /\ matrix_add g b a = Ok r)
  /\ matrix_add g a (new_matrix g) = Ok a
  /\ matrix_add g (new_matrix g) a = Ok a.
Proof.
  pose proof (under_context_nonneg g a Ha) as HE.
  pose proof (new_matrix_under_context g HE) as Hz.
  assert (forall i, 0 <= i < g_elements g -> wrap32 (cell a i) = cell a i) as Hwrap.
  { intros i Hi. apply wrap32_small, cell_uint32; [assumption|].
    unfold under_context in Ha. lia. }
  split; [|split].
  - destruct (matrix_add_cells g a Ha b Hb) as (r & Hrun & Hr & Hcells).
    destruct (matrix_add_cells g b Hb a Ha) as (r' & Hrun' & Hr' & Hcells').
    exists r. split; [assumption|]. rewrite Hrun'. f_equal.
    apply (matrix_ext_context g); try assumption.
    intros i Hi. rewrite Hcells, Hcells' by lia. f_equal. lia.
  - destruct (matrix_add_cells g a Ha _ Hz) as (r & Hrun & Hr & Hcells).
    rewrite Hrun. f_equal. apply (matrix_ext_context g); try assumption.
    intros i Hi. rewrite Hcells, cell_new_matrix, Z.add_0_r by lia. by apply Hwrap.
  - destruct (matrix_add_cells g _ Hz a Ha) as (r & Hrun & Hr & Hcells).
    rewrite Hrun. f_equal. apply (matrix_ext_context g); try assumption.
    intros i Hi. rewrite Hcells, cell_new_matrix, Z.add_0_l by lia. by apply Hwrap.
Qed.

Lemma matrix_add_comm_zero_witness :
  (exists r, matrix_add order2 [1; 2; 3; 4] [4294967295; 6; 7; 8] = Ok r /\
     matrix_add order2 [4294967295; 6; 7; 8] [1; 2; 3; 4] = Ok r)
  /\ matrix_add order2 [1; 2; 3; 4] (new_matrix order2) = Ok [1; 2; 3; 4]
  /\ matrix_add order2 (new_matrix order2) [1; 2; 3; 4] = Ok [1; 2; 3; 4].
Proof.
  apply (matrix_add_comm_zero order2 [1; 2; 3; 4] [4294967295; 6; 7; 8]).
  - reflexivity.
  - reflexivity.
  - repeat constructor; lia.
Defined.

(** X8. [get_sum (matrix_add a b)] is [get_sum a + get_sum b] modulo
    2^32. *)
Theorem get_sum_matrix_add (g : globals) (a b : matrix)
    (Ha : under_context g a) (Hb : under_context g b) :
  exists r ta tb, matrix_add g a b = Ok r /\ get_sum g a = Ok ta /\
    get_sum g b = Ok tb /\ get_sum g r = Ok (wrap32 (ta + tb)).
Proof.
  destruct (matrix_add_cells g a Ha b Hb) as (r & Hrun & Hr & Hcells).
  exists r. do 2 eexists. split; [assumption|].
  split; [by apply get_sum_sum_upto|]. split; [by apply get_sum_sum_upto|].
  rewrite wrap32_add_l, wrap32_add_r, <- sum_upto_add.
  apply get_sum_cells; [assumption|].
  intros k Hk. rewrite Hcells by lia. apply wrap32_idemp.
Qed.

Lemma get_sum_matrix_add_witness :
  exists r ta tb,
    matrix_add order2 [1; 2; 3; 4] [4294967295; 6; 7; 8] = Ok r /\
    get_sum order2 [1; 2; 3; 4] = Ok ta /\
    get_sum order2 [4294967295; 6; 7; 8] = Ok tb /\
    get_sum order2 r = Ok (wrap32 (ta + tb)).
Proof.
  apply (get_sum_matrix_add order2 [1; 2; 3; 4] [4294967295; 6; 7; 8]);
    reflexivity.
Defined.

(** X9. [matrix_add] reads [g_elements] words of each operand: when one
    of the two buffers is shorter than that, the call is undefined. *)
Theorem matrix_add_short_operand (g : globals) (a b : matrix)
    (Hshort : Z.of_nat (length a) < g_elements g
              \/ Z.of_nat (length b) < g_elements g) :
  matrix_add g a b = Undefined.
Proof.
  set (k := Z.min (Z.of_nat (length a)) (Z.of_nat (length b))).
  unfold matrix_add.
  apply (for_loop_undefined
           (fun _ (r : matrix) => Z.of_nat (length r) = g_elements g)
           0 (g_elements g) k).
  - lia.
  - rewrite length_new_matrix. lia.
  - intros i r Hi Hr.
    rewrite (load_cell a) by lia. rewrite bind_Ok.
    rewrite (load_cell b) by lia. rewrite bind_Ok.
    rewrite store_ok by lia. eexists. split; [reflexivity|].
    by rewrite length_insert.
  - intros r Hr. destruct (Z.le_gt_cases (Z.of_nat (length a)) k) as [Hle|Hgt].
    + by rewrite (load_undefined a) by lia.
    + rewrite (load_cell a) by lia. rewrite bind_Ok.
      by rewrite (load_undefined b) by lia.
Qed.

Lemma matrix_add_short_operand_witness :
  matrix_add order2 [1; 2; 3; 4] [5; 6; 7] = Undefined.
Proof.
  apply (matrix_add_short_operand order2 [1; 2; 3; 4] [5; 6; 7]).
  right. simpl. lia.
Defined.

(** ** Frequencies *)

Lemma count_occ_replicate (n : nat) (v w : Z) :
  count_occ Z.eq_dec (replicate n v) w = if Z.eq_dec v w then n else O.
Proof.
  induction n as [|n IH]; simpl.
  - by destruct (Z.eq_dec v w).
  - rewrite IH. by destruct (Z.eq_dec v w).
Qed.

Lemma get_frequency_spec (g : globals) (m : matrix) (value : Z) :
  under_context g m ->
  get_frequency g m value = Ok (wrap32 (occurrences m value)).
Proof.
  intros Hm. unfold get_frequency, occurrences, under_context in *.
  destruct (for_loop_rule
    (fun i (acc : Z) =>
       acc = wrap32 (Z.of_nat (count_occ Z.eq_dec (take (Z.to_nat i) m) value)))
    0 (g_elements g)
    (fun c freq_counter =>
       v ← load m c;
       Ok (if v =? value then wrap32 (freq_counter + 1) else freq_counter))
    0) as (acc & Hrun & Hacc).
  - lia.
  - reflexivity.
  - intros i acc Hi ->. rewrite load_cell by lia. rewrite bind_Ok.
    eexists. split; [reflexivity|].
    replace (Z.to_nat (i + 1)) with (S (Z.to_nat i)) by lia.
    rewrite (take_S_r m (Z.to_nat i) (cell m i))
      by (apply list_lookup_lookup_total_lt; lia).
    rewrite count_occ_app. simpl.
    destruct (Z.eqb_spec (cell m i) value) as [Heq|Hne].
    + destruct (Z.eq_dec (cell m i) value); [|contradiction].
      rewrite wrap32_add_l. f_equal. lia.
    + destruct (Z.eq_dec (cell m i) value); [contradiction|].
      by rewrite Nat.add_0_r.
  - rewrite Hrun, Hacc. by rewrite take_ge by lia.
Qed.

(** X10. [get_frequency m value] is the number of words of [m] equal to
    [value], reduced modulo 2^32; it is at most the element count. *)
Theorem get_frequency_counts (g : globals) (m : matrix) (value : Z)
    (Hm : under_context g m) :
  get_frequency g m value = Ok (wrap32 (occurrences m value))
  /\ 0 <= occurrences m value <= g_elements g.
Proof.
  split; [by apply get_frequency_spec|].
  unfold occurrences, under_context in *.
  pose proof (count_occ_bound Z.eq_dec value m). lia.
Qed.

Lemma get_frequency_counts_witness :
  get_frequency order2 [7; 3; 7; 7] 7 = Ok (wrap32 (occurrences [7; 3; 7; 7] 7))
  /\ 0 <= occurrences [7; 3; 7; 7] 7 <= g_elements order2.
Proof. apply (get_frequency_counts order2 [7; 3; 7; 7] 7). reflexivity. Defined.

(** X11. In [uniform_matrix value] the frequency of [value] is the element
    count modulo 2^32, and the frequency of any other word is 0. *)
Theorem uniform_matrix_frequency (g : globals) (value other : Z)
    (HE : 0 <= g_elements g) (Hne : other <> value) :
  exists m, uniform_matrix g value = Ok m /\ under_context g m /\
    get_frequency g m value = Ok (wrap32 (g_elements g)) /\
    get_frequency g m other = Ok 0.
Proof.
  destruct (uniform_matrix_fill g value HE) as (m & Hrun & Hm & Hcells).
  assert (m = replicate (Z.to_nat (g_elements g)) value) as ->.
  { unfold under_context in Hm. apply matrix_ext.
    - rewrite length_replicate. lia.
    - intros i Hi. rewrite Hcells by lia. unfold cell.
      symmetry. apply lookup_total_replicate_2. lia. }
  eexists. split; [eassumption|]. split; [assumption|].
  rewrite !get_frequency_spec by assumption. unfold occurrences.
  rewrite !count_occ_replicate.
  destruct (Z.eq_dec value value); [|contradiction].
  destruct (Z.eq_dec value other); [congruence|].
  split; [f_equal; f_equal; lia | reflexivity].
Qed.

Lemma uniform_matrix_frequency_witness :
  exists m, uniform_matrix order3 7 = Ok m /\ under_context order3 m /\
    get_frequency order3 m 7 = Ok (wrap32 (g_elements order3)) /\
    get_frequency order3 m 8 = Ok 0.
Proof. apply (uniform_matrix_frequency order3 7 8); simpl; lia. Defined.

(** ** Sequences *)

(** X12. Word [i] of [sequence_matrix start step] is [start + i * step]
    modulo 2^32. *)
Theorem sequence_matrix_cells (g : globals) (start step : Z)
    (HE : 0 <= g_elements g) (Hstart : uint32 start) :
  exists m, sequence_matrix g start step = Ok m /\ under_context g m /\
    forall i, 0 <= i < g_elements g -> cell m i = wrap32 (start + i * step).
Proof.
  unfold sequence_matrix.
  destruct (for_loop_rule
    (fun i (s : matrix * Z) =>
       under_context g s.1 /\ s.2 = wrap32 (start + i * step) /\
       forall k, 0 <= k < i -> cell s.1 k = wrap32 (start + k * step))
    0 (g_elements g)
    (fun i '(m, current) =>
       m ← store m i current; Ok (m, wrap32 (current + step)))
    (new_matrix g, start)) as ([m cur] & Hrun & Hm & _ & Hcells).
  - assumption.
  - simpl. split; [by apply new_matrix_under_context|].
    split; [|intros; lia].
    rewrite Z.mul_0_l, Z.add_0_r. symmetry. by apply wrap32_small.
  - intros i [m cur] Hi (Hm & Hcur & Hcells). simpl in *. subst cur.
    unfold under_context in *. rewrite store_ok by lia. rewrite bind_Ok.
    eexists. split; [reflexivity|]. simpl.
    split; [by rewrite length_insert|]. split.
    + rewrite wrap32_add_l. f_equal. lia.
    + intros k Hk. destruct (Z.eq_dec k i) as [->|Hne].
      * by rewrite cell_insert_eq by lia.
      * rewrite cell_insert_ne by lia. apply Hcells. lia.
  - rewrite Hrun. simpl in *. exists m. auto.
Qed.

Lemma sequence_matrix_cells_witness :
  exists m, sequence_matrix order2 4294967295 3 = Ok m /\ cell m 2 = 5.
Proof.
  destruct (sequence_matrix_cells order2 4294967295 3) as (m & Hrun & _ & Hcells).
  - simpl. lia.
  - unfold uint32. lia.
  - exists m. split; [exact Hrun|]. by rewrite Hcells by (simpl; lia).
Defined.

(** ** Trace *)

Lemma get_trace_spec (g : globals) (N : Z) (m : matrix) :
  square_context g N -> 0 <= N -> under_context g m ->
  get_trace g m = Ok (wrap32 (diagonal_sum N m (Z.to_nat N))).
Proof.
  intros (Hw & _ & He) HN Hm. unfold get_trace, under_context in *.
  rewrite Hw.
  destruct (for_loop_rule
    (fun i (acc : Z) => acc = wrap32 (diagonal_sum N m (Z.to_nat i)))
    0 N
    (fun c matrix_trace => v ← load m (c * N + c); Ok (wrap32 (matrix_trace + v)))
    0) as (acc & Hrun & Hacc).
  - assumption.
  - reflexivity.
  - intros i acc Hi ->. pose proof (index_bound N i i Hi Hi).
    rewrite load_cell by lia. rewrite bind_Ok.
    eexists. split; [reflexivity|].
    replace (Z.to_nat (i + 1)) with (S (Z.to_nat i)) by lia.
    unfold diagonal_sum. simpl sum_upto. rewrite Z2Nat.id by lia.
    apply wrap32_add_l.
  - by rewrite Hrun, Hacc.
Qed.

Lemma nat_index (N : Z) (r k : nat) :
  Z.of_nat (r * Z.to_nat N + k) = Z.of_nat r * N + Z.of_nat k \/ N < 0.
Proof. destruct (Z.lt_ge_cases N 0); [by right | left; nia]. Qed.

(** X13. The identity matrix of order [N] has trace [N] and sum [N],
    modulo 2^32. *)
Theorem identity_matrix_trace_sum (g : globals) (N : Z)
    (Hctx : square_context g N) (HN : 0 <= N) :
  exists e, identity_matrix g = Ok e /\
    get_trace g e = Ok (wrap32 N) /\ get_sum g e = Ok (wrap32 N).
Proof.
  destruct (identity_matrix_spec g N Hctx HN) as (e & Hrun & He & Hcells).
  exists e. split; [assumption|]. split.
  - rewrite (get_trace_spec g N e Hctx HN He). do 2 f_equal.
    unfold diagonal_sum.
    rewrite (sum_upto_ext _ (fun _ => 1)).
    + rewrite sum_upto_const. lia.
    + intros k Hk. rewrite Hcells by lia. by rewrite Z.eqb_refl.
  - rewrite (get_sum_sum_upto g e He). do 2 f_equal.
    destruct Hctx as (_ & _ & Hel). rewrite Hel.
    replace (Z.to_nat (N * N)) with (Z.to_nat N * Z.to_nat N)%nat by nia.
    assert (forall r, (r <= Z.to_nat N)%nat ->
              sum_upto (fun k => cell e (Z.of_nat k)) (r * Z.to_nat N)
              = Z.of_nat r) as Hrows.
    { induction r as [|r IH]; intros Hr; [reflexivity|].
      replace (S r * Z.to_nat N)%nat with (r * Z.to_nat N + Z.to_nat N)%nat by lia.
      rewrite sum_upto_app, IH by lia.
      rewrite (sum_upto_ext _ (fun k => if Nat.eqb k r then 1 else 0)).
      - rewrite sum_upto_indicator.
        replace (r <? Z.to_nat N)%nat with true by (symmetry; apply Nat.ltb_lt; lia).
        lia.
      - intros k Hk. destruct (nat_index N r k) as [->|]; [|lia].
        rewrite Hcells by lia.
        destruct (Nat.eqb_spec k r) as [->|Hne].
        + by rewrite Z.eqb_refl.
        + by replace (Z.of_nat r =? Z.of_nat k) with false
            by (symmetry; apply Z.eqb_neq; lia). }
    rewrite Hrows by lia. lia.
Qed.

Lemma identity_matrix_trace_sum_witness :
  exists e, identity_matrix order3 = Ok e /\
    get_trace order3 e = Ok (wrap32 3) /\ get_sum order3 e = Ok (wrap32 3).
Proof.
  apply (identity_matrix_trace_sum order3 3).
  - repeat split.
  - lia.
Defined.

(** ** Transposition *)

Lemma index_div_mod (N x y : Z) :
  0 <= y < N -> (x * N + y) / N = x /\ (x * N + y) mod N = y.
Proof.
  intros Hy. split.
  - rewrite Z.div_add_l by lia. rewrite Z.div_small by lia. lia.
  - rewrite Z.add_comm, Z.mod_add by lia. apply Z.mod_small. lia.
Qed.

Lemma transposed_cells (g : globals) (N : Z) (m : matrix) :
  square_context g N -> 0 <= N -> under_context g m ->
  exists r, transposed g m = Ok r /\ under_context g r /\
    forall x y, 0 <= x < N -> 0 <= y < N ->
      cell r (x * N + y) = cell m (y * N + x).
Proof.
  intros (Hw & Hh & He) HN Hm. unfold transposed, under_context in *.
  rewrite Hw, Hh, He in *.
  destruct (for_loop_rule
    (fun y (r : matrix) =>
       Z.of_nat (length r) = N * N /\
       forall y' x, 0 <= y' < y -> 0 <= x < N ->
         cell r (x * N + y') = cell m (y' * N + x))
    0 N
    (fun y result =>
       for_loop 0 N
         (fun x result =>
            v ← load m (y * N + x); store result (x * N + y) v)
         result)
    (new_matrix g)) as (r & Hrun & Hr & Hcells).
  - assumption.
  - split; [rewrite length_new_matrix; lia | intros; lia].
  - intros y r Hy (Hr & Hdone).
    destruct (for_loop_rule
      (fun x (r' : matrix) =>
         Z.of_nat (length r') = N * N /\
         (forall y' x', 0 <= y' < y -> 0 <= x' < N ->
            cell r' (x' * N + y') = cell m (y' * N + x')) /\
         forall x', 0 <= x' < x -> cell r' (x' * N + y) = cell m (y * N + x'))
      0 N
      (fun x result => v ← load m (y * N + x); store result (x * N + y) v)
      r) as (r' & Hrun' & Hr' & Hdone' & Hrow).
    + assumption.
    + split; [assumption|]. split; [assumption | intros; lia].
    + intros x t Hx (Ht & Hprev & Hcur).
      pose proof (index_bound N y x Hy Hx).
      pose proof (index_bound N x y Hx Hy).
      rewrite load_cell by lia. rewrite bind_Ok. rewrite store_ok by lia.
      eexists. split; [reflexivity|].
      split; [by rewrite length_insert|]. split.
      * intros y' x' Hy' Hx'.
        pose proof (index_bound N x' y' Hx' ltac:(lia)).
        rewrite cell_insert_ne; [by apply Hprev | lia | lia |].
        intros Heq. apply (index_inj N x y x' y') in Heq; lia.
      * intros x' Hx'. destruct (Z.eq_dec x' x) as [->|Hne].
        -- by rewrite cell_insert_eq by lia.
        -- pose proof (index_bound N x' y ltac:(lia) Hy).
           rewrite cell_insert_ne; [apply Hcur; lia | lia | lia |].
           intros Heq. apply (index_inj N x y x' y) in Heq; lia.
    + exists r'. split; [assumption|]. split; [assumption|].
      intros y' x Hy' Hx. destruct (Z.eq_dec y' y) as [->|Hne].
      * by apply Hrow.
      * apply Hdone'; lia.
  - exists r. split; [assumption|]. split; [assumption|].
    intros x y Hx Hy. by apply Hcells.
Qed.

(** Equality of two matrices of order [N] from their cells by row and
    column. *)
Lemma matrix_ext_square (g : globals) (N : Z) (m1 m2 : matrix) :
  square_context g N -> 0 <= N ->
  under_context g m1 -> under_context g m2 ->
  (forall x y, 0 <= x < N -> 0 <= y < N ->
     cell m1 (x * N + y) = cell m2 (x * N + y)) ->
  m1 = m2.
Proof.
  intros (_ & _ & He) HN H1 H2 Hcells.
  apply (matrix_ext_context g); try assumption.
  intros c Hc. rewrite He in Hc.
  destruct (row_col_bounds N c HN Hc) as (_ & Hrow & Hcol & Hdm).
  rewrite Hdm. by apply Hcells.
Qed.

(** X14. Transposing twice gives the matrix back. *)
Theorem transposed_involutive (g : globals) (N : Z) (m : matrix)
    (Hctx : square_context g N) (HN : 0 <= N) (Hm : under_context g m) :
  exists r, transposed g m = Ok r /\ transposed g r = Ok m.
Proof.
  destruct (transposed_cells g N m Hctx HN Hm) as (r & Hrun & Hr & Hcells).
  destruct (transposed_cells g N r Hctx HN Hr) as (r2 & Hrun2 & Hr2 & Hcells2).
  exists r. split; [assumption|]. rewrite Hrun2. f_equal.
  apply (matrix_ext_square g N); try assumption.
  intros x y Hx Hy. by rewrite Hcells2, Hcells.
Qed.

Lemma transposed_involutive_witness :
  exists r, transposed order3 [1; 2; 3; 4; 5; 6; 7; 8; 9] = Ok r /\
    transposed order3 r = Ok [1; 2; 3; 4; 5; 6; 7; 8; 9].
Proof.
  apply (transposed_involutive order3 3 [1; 2; 3; 4; 5; 6; 7; 8; 9]).
  - repeat split.
  - lia.
  - reflexivity.
Defined.

(** X15. Transposition keeps the trace. *)
Theorem get_trace_transposed (g : globals) (N : Z) (m : matrix)
    (Hctx : square_context g N) (HN : 0 <= N) (Hm : under_context g m) :
  exists r t, transposed g m = Ok r /\ get_trace g r = Ok t /\
    get_trace g m = Ok t.
Proof.
  destruct (transposed_cells g N m Hctx HN Hm) as (r & Hrun & Hr & Hcells).
  exists r. eexists. split; [assumption|].
  split; [|by apply (get_trace_spec g N)].
  rewrite (get_trace_spec g N r) by assumption. do 2 f_equal.
  unfold diagonal_sum. apply sum_upto_ext. intros k Hk.
  apply Hcells; lia.
Qed.

Lemma get_trace_transposed_witness :
  exists r t, transposed order2 [1; 2; 3; 4] = Ok r /\
    get_trace order2 r = Ok t /\ get_trace order2 [1; 2; 3; 4] = Ok t.
Proof.
  apply (get_trace_transposed order2 2 [1; 2; 3; 4]).
  - repeat split.
  - lia.
  - reflexivity.
Defined.

Lemma dot32_transposed (N : Z) (a b ta tb : matrix) (x y : Z) (n : nat) :
  (forall i j, 0 <= i < N -> 0 <= j < N -> cell ta (i * N + j) = cell a (j * N + i)) ->
  (forall i j, 0 <= i < N -> 0 <= j < N -> cell tb (i * N + j) = cell b (j * N + i)) ->
  0 <= x < N -> 0 <= y < N -> Z.of_nat n <= N ->
  dot32 N tb ta x y n = dot32 N a b y x n.
Proof.
  intros Hta Htb Hx Hy. induction n as [|n IH]; intros Hn; [reflexivity|].
  simpl dot32. rewrite IH by lia. rewrite Hta, Htb by lia.
  do 3 f_equal. lia.
Qed.

(** X16. The transpose of a product is the product of the transposes in
    the opposite order. *)
Theorem transposed_matrix_mul (g : globals) (N : Z) (a b : matrix)
    (Hctx : square_context g N) (HN : 0 <= N)
    (Ha : under_context g a) (Hb : under_context g b) :
  exists p tp ta tb,
    matrix_mul g a b = Ok p /\ transposed g p = Ok tp /\
    transposed g a = Ok ta /\ transposed g b = Ok tb /\
    matrix_mul g tb ta = Ok tp.
Proof.
  destruct (matrix_mul_spec g N a b Hctx HN Ha Hb) as (p & Hp & Hpc & Hpcells).
  destruct (transposed_cells g N p Hctx HN Hpc) as (tp & Htp & Htpc & Htpcells).
  destruct (transposed_cells g N a Hctx HN Ha) as (ta & Hta & Htac & Htacells).
  destruct (transposed_cells g N b Hctx HN Hb) as (tb & Htb & Htbc & Htbcells).
  destruct (matrix_mul_spec g N tb ta Hctx HN Htbc Htac) as (q & Hq & Hqc & Hqcells).
  exists p, tp, ta, tb. repeat (split; [assumption|]).
  rewrite Hq. f_equal. apply (matrix_ext_square g N); try assumption.
  intros x y Hx Hy.
  pose proof (index_bound N x y Hx Hy). pose proof (index_bound N y x Hy Hx).
  rewrite Hqcells, Htpcells, Hpcells by lia. unfold product_cell.
  destruct (index_div_mod N x y Hy) as [-> ->].
  destruct (index_div_mod N y x Hx) as [-> ->].
  apply (dot32_transposed N a b ta tb); try assumption. lia.
Qed.

Lemma transposed_matrix_mul_witness :
  exists p tp ta tb,
    matrix_mul order2 [1; 2; 3; 4] [5; 6; 7; 8] = Ok p /\
    transposed order2 p = Ok tp /\
    transposed order2 [1; 2; 3; 4] = Ok ta /\
    transposed order2 [5; 6; 7; 8] = Ok tb /\
    matrix_mul order2 tb ta = Ok tp.
Proof.
  apply (transposed_matrix_mul order2 2 [1; 2; 3; 4] [5; 6; 7; 8]).
  - repeat split.
  - lia.
  - reflexivity.
  - reflexivity.
Defined.

(** ** Maximum *)

Lemma get_maximum_scan (g : globals) (m : matrix) :
  under_context g m -> 1 <= g_elements g ->
  exists v, get_maximum g m = Ok v
    /\ (exists k, 0 <= k < g_elements g /\ v = cell m k)
    /\ forall k, 0 <= k < g_elements g -> cell m k <= v.
Proof.
  intros Hm Hel. unfold get_maximum, under_context in *.
  rewrite load_cell by lia. rewrite bind_Ok.
  destruct (for_loop_rule
    (fun i (acc : Z) =>
       (exists k, 0 <= k < g_elements g /\ acc = cell m k)
       /\ forall k, 0 <= k < i -> cell m k <= acc)
    0 (g_elements g)
    (fun c matrix_largest_val =>
       v ← load m c;
       Ok (if v >? matrix_largest_val then v else matrix_largest_val))
    (cell m 0))
    as (v & Hrun & Hin & Hmax).
  - lia.
  - split; [exists 0; split; [lia | reflexivity] | intros; lia].
  - intros i acc Hi (Hin & Hmax). rewrite load_cell by lia. rewrite bind_Ok.
    eexists. split; [reflexivity|].
    rewrite Z.gtb_ltb. destruct (acc <? cell m i) eqn:Hlt.
    + apply Z.ltb_lt in Hlt. split; [exists i; split; [lia | reflexivity]|].
      intros k Hk. destruct (Z.eq_dec k i) as [->|Hne]; [lia|].
      specialize (Hmax k ltac:(lia)). lia.
    + apply Z.ltb_ge in Hlt. split; [assumption|].
      intros k Hk. destruct (Z.eq_dec k i) as [->|Hne]; [lia|].
      apply Hmax. lia.
  - exists v. auto.
Qed.

(** X17. With at least one element, [get_maximum m] returns a word that
    occurs in [m] and is no smaller than any word of [m]; with no element
    its first read is out of bounds and the call is undefined. *)
Theorem get_maximum_correct (g : globals) (m : matrix) (Hm : under_context g m) :
  (1 <= g_elements g ->
   exists v, get_maximum g m = Ok v /\ In v m /\ forall x, In x m -> x <= v)
  /\ (g_elements g = 0 -> get_maximum g m = Undefined).
Proof.
  split.
  - intros Hel.
    destruct (get_maximum_scan g m Hm Hel) as (v & Hrun & (k & Hk & ->) & Hmax).
    unfold under_context in Hm.
    exists (cell m k). split; [assumption|]. split.
    + apply list_elem_of_In. unfold cell. apply list_elem_of_lookup_total_2. lia.
    + intros x Hx. apply list_elem_of_In, list_elem_of_lookup_total_1 in Hx.
      destruct Hx as (i & Hi & <-).
      specialize (Hmax (Z.of_nat i) ltac:(lia)).
      unfold cell in Hmax at 1. by rewrite Nat2Z.id in Hmax.
  - intros Hel. unfold under_context in Hm.
    destruct m as [|x m]; [reflexivity | simpl in Hm; lia].
Qed.

Lemma get_maximum_correct_witness :
  (exists v, get_maximum order2 [3; 1; 2; 5] = Ok v /\ v = 5)
  /\ get_maximum (set_dimensions 0 initial_globals) [] = Undefined.
Proof.
  split.
  - destruct (get_maximum_correct order2 [3; 1; 2; 5] eq_refl) as [Hmax _].
    destruct Hmax as (v & Hrun & Hin & Hge); [simpl; lia|].
    exists v. split; [exact Hrun|].
    pose proof (Hge 5 ltac:(simpl; tauto)) as Hge5.
    simpl in Hin. lia.
  - destruct (get_maximum_correct (set_dimensions 0 initial_globals) [] eq_refl)
      as [_ Hundef].
    apply Hundef. reflexivity.
Defined.

(** X18. With at least one element, the minimum is at most the
    maximum. *)
Theorem get_minimum_le_maximum (g : globals) (m : matrix)
    (Hm : under_context g m) (Hel : 1 <= g_elements g) :
  exists lo hi, get_minimum g m = Ok lo /\ get_maximum g m = Ok hi /\ lo <= hi.
Proof.
  destruct (get_minimum_scan g m Hm Hel) as (lo & Hlo & _ & Hmin).
  destruct (get_maximum_scan g m Hm Hel) as (hi & Hhi & _ & Hmax).
  exists lo, hi. split; [assumption|]. split; [assumption|].
  specialize (Hmin 0 ltac:(lia)). specialize (Hmax 0 ltac:(lia)). lia.
Qed.

Lemma get_minimum_le_maximum_witness :
  exists lo hi, get_minimum order2 [3; 1; 2; 5] = Ok lo /\
    get_maximum order2 [3; 1; 2; 5] = Ok hi /\ lo <= hi.
Proof.
  apply (get_minimum_le_maximum order2 [3; 1; 2; 5]).
  - reflexivity.
  - simpl. lia.
Defined.

(** ** The generator *)

Lemma land_15_bits (x : Z) : 0 <= Z.land x 32767 <= 32767.
Proof.
  change (Z.land x 32767) with (Z.land x (Z.ones 15)).
  rewrite Z.land_ones by lia.
  pose proof (Z.mod_pos_bound x (2 ^ 15) ltac:(lia)) as H.
  change (2 ^ 15) with 32768 in *. lia.
Qed.

Lemma draw_range (seed : Z) (k : nat) : 0 <= draw seed k <= 32767.
Proof. apply land_15_bits. Qed.

(** X19. [fast_rand] returns a value in [0, 32767] and leaves a [uint32_t]
    seed; every word of a random matrix lies in [0, 32767], and
    [random_matrix] leaves the dimension context as it was. *)
Theorem random_matrix_range (seed : Z) (g : globals) :
  (0 <= (fast_rand g).1 <= 32767 /\ uint32 (g_seed (fast_rand g).2))
  /\ exists m g', random_matrix seed g = Ok (m, g') /\
       Forall (fun x => 0 <= x <= 32767) m /\ same_dimensions g g'.
Proof.
  split.
  - unfold fast_rand. cbn [fst snd g_seed with_seed]. split.
    + apply land_15_bits.
    + unfold uint32, wrap32. apply Z.mod_pos_bound. lia.
  - destruct (random_matrix_spec seed g) as (m & Hrun & Hlen & Hcells).
    exists m. eexists. split; [exact Hrun|]. split; [|repeat split].
    apply Forall_lookup. intros i x Hix.
    pose proof (lookup_lt_Some _ _ _ Hix) as Hi.
    specialize (Hcells (Z.of_nat i) ltac:(lia)). unfold cell in Hcells.
    rewrite Nat2Z.id in Hcells.
    apply list_lookup_total_correct in Hix. rewrite <- Hix, Hcells.
    apply draw_range.
Qed.

(** ** Products at the edge *)

Lemma dot32_zero_r (N : Z) (m z : matrix) (row col : Z) (n : nat) :
  (forall k, 0 <= k < Z.of_nat n -> cell z (k * N + col) = 0) ->
  dot32 N m z row col n = 0.
Proof.
  induction n as [|k IH]; intros Hz; [reflexivity|].
  simpl dot32. rewrite IH by (intros; apply Hz; lia).
  rewrite Hz by lia. rewrite Z.mul_0_r. reflexivity.
Qed.

(** X20. The zero matrix is absorbing for [matrix_mul] on both sides. *)
Theorem matrix_mul_zero (g : globals) (N : Z) (m : matrix)
    (Hctx : square_context g N) (HN : 0 <= N) (Hm : under_context g m) :
  matrix_mul g m (new_matrix g) = Ok (new_matrix g)
  /\ matrix_mul g (new_matrix g) m = Ok (new_matrix g).
Proof.
  split; [|by apply (matrix_mul_zero_l g N)].
  pose proof Hctx as (Hw & _ & He).
  pose proof (new_matrix_under_context g (under_context_nonneg g m Hm)) as Hz.
  destruct (matrix_mul_spec g N m (new_matrix g) Hctx HN Hm Hz)
    as (r & Hrun & Hr & Hcells).
  rewrite Hrun. f_equal. apply (matrix_ext_context g); try assumption.
  intros c Hc. rewrite Hcells, cell_new_matrix by lia.
  destruct (row_col_bounds N c HN ltac:(lia)) as (HNpos & Hrow & Hcol & Hdm).
  apply dot32_zero_r. intros k Hk. apply cell_new_matrix.
  rewrite He. apply index_bound; lia.
Qed.

Lemma matrix_mul_zero_witness :
  matrix_mul order2 [1; 2; 3; 4] (new_matrix order2) = Ok (new_matrix order2)
  /\ matrix_mul order2 (new_matrix order2) [1; 2; 3; 4] = Ok (new_matrix order2).
Proof.
  apply (matrix_mul_zero order2 2 [1; 2; 3; 4]).
  - repeat split.
  - lia.
  - reflexivity.
Defined.

(** Under a negative width the column loop steps backwards: its second
    read of [matrix_b] is before the start of the buffer. *)
Lemma mul_column_loop_negative (g : globals) (a b : matrix) (c fr sc : Z)
    (r : matrix) :
  g_width g < 0 -> 0 <= sc < g_elements g -> sc + g_width g < 0 ->
  mul_column_loop g a b c (fr, sc, r) = Undefined.
Proof.
  intros Hw Hsc Hneg. unfold mul_column_loop.
  destruct (Z.to_nat (g_elements g)) as [|n] eqn:Hn; [lia|].
  cbn [while_loop].
  replace (sc <? g_elements g) with true by (symmetry; apply Z.ltb_lt; lia).
  pose proof (load_fuel a fr).
  destruct (load a fr) as [x| |]; cbn [mbind outcome_bind]; [|reflexivity|done].
  pose proof (load_fuel b sc).
  destruct (load b sc) as [y| |]; cbn [mbind outcome_bind]; [|reflexivity|done].
  pose proof (load_fuel r c).
  destruct (load r c) as [v| |]; cbn [mbind outcome_bind]; [|reflexivity|done].
  pose proof (store_fuel r c (wrap32 (v + wrap32 (x * y)))).
  destruct (store r c _) as [r'| |]; cbn [mbind outcome_bind]; [|reflexivity|done].
  replace (sc + g_width g <? g_elements g) with true
    by (symmetry; apply Z.ltb_lt; lia).
  pose proof (load_fuel a (fr + 1)).
  destruct (load a (fr + 1)) as [x'| |]; cbn [mbind outcome_bind];
    [|reflexivity|done].
  by rewrite (load_negative b) by assumption.
Qed.

(** X21. Under a negative order [matrix_mul] is undefined whatever its
    operands, and so is [matrix_pow] for every exponent from 2 on. *)
Theorem matrix_mul_negative_order (g : globals) (N : Z) (a b : matrix)
    (exponent : Z) (Hctx : square_context g N) (HN : N < 0)
    (He : 2 <= exponent < 2 ^ 32) :
  matrix_mul g a b = Undefined /\ matrix_pow g a exponent = Undefined.
Proof.
  destruct Hctx as (Hw & _ & Hel).
  assert (forall x y, matrix_mul g x y = Undefined) as Hmul.
  { intros x y. unfold matrix_mul.
    apply (for_loop_undefined (fun _ _ => True) 0 (g_elements g) 0).
    - nia.
    - exact I.
    - intros i t Hi. lia.
    - intros t _. unfold mul_row_loop, ssize_div, ssize_rem. rewrite Hw.
      replace (N =? 0) with false by (symmetry; apply Z.eqb_neq; lia).
      rewrite !bind_Ok. rewrite Z.quot_0_l, Z.rem_0_l by lia.
      replace (0 * N <? g_elements g) with true by (symmetry; apply Z.ltb_lt; nia).
      rewrite mul_column_loop_negative; [reflexivity | lia | nia | lia]. }
  split; [apply Hmul|].
  unfold matrix_pow.
  replace (exponent =? 0) with false by (symmetry; apply Z.eqb_neq; lia).
  rewrite (wrap32_small (exponent - 1)) by lia.
  cbn [while_loop]. change (int_to_uint32 0) with 0.
  replace (0 <? exponent - 1) with true by (symmetry; apply Z.ltb_lt; lia).
  cbn [andb negb]. by rewrite Hmul.
Qed.

Lemma matrix_mul_negative_order_witness :
  matrix_mul (set_dimensions (-2) initial_globals) [1; 2; 3; 4] [5; 6; 7; 8]
  = Undefined
  /\ matrix_pow (set_dimensions (-2) initial_globals) [1; 2; 3; 4] 2 = Undefined.
Proof.
  apply (matrix_mul_negative_order (set_dimensions (-2) initial_globals) (-2)).
  - repeat split.
  - lia.
  - lia.
Defined.

(** ** The algebra of the product *)

Lemma sum_upto_scale_r (s : Z) (f : nat -> Z) (n : nat) :
  sum_upto (fun k => f k * s) n = sum_upto f n * s.
Proof. induction n as [|n IH]; simpl; lia. Qed.

Lemma sum_upto_swap (F : nat -> nat -> Z) (n p : nat) :
  sum_upto (fun l => sum_upto (fun k => F k l) n) p
  = sum_upto (fun k => sum_upto (fun l => F k l) p) n.
Proof.
  induction p as [|p IH]; simpl.
  - symmetry. rewrite sum_upto_const. lia.
  - rewrite IH, <- sum_upto_add. reflexivity.
Qed.

Lemma sum_upto_assoc (A : nat -> Z) (B : nat -> nat -> Z) (C : nat -> Z)
    (n p : nat) :
  sum_upto (fun l => sum_upto (fun k => A k * B k l) n * C l) p
  = sum_upto (fun k => A k * sum_upto (fun l => B k l * C l) p) n.
Proof.
  rewrite (sum_upto_ext _ (fun l => sum_upto (fun k => A k * B k l * C l) n))
    by (intros l _; symmetry; apply sum_upto_scale_r).
  rewrite sum_upto_swap. apply sum_upto_ext. intros k _.
  rewrite <- sum_upto_scale. apply sum_upto_ext. intros l _. lia.
Qed.

Lemma dot32_exact (N : Z) (a b : matrix) (row col : Z) (n : nat) :
  dot32 N a b row col n
  = wrap32 (sum_upto (fun k => cell a (row * N + Z.of_nat k)
                                * cell b (Z.of_nat k * N + col)) n).
Proof.
  induction n as [|n IH]; [reflexivity|].
  simpl dot32. rewrite IH. simpl sum_upto.
  by rewrite wrap32_add_l, wrap32_add_r.
Qed.

Lemma product_cell_exact (N : Z) (a b : matrix) (x y : Z) :
  0 <= y < N ->
  product_cell N a b (x * N + y)
  = wrap32 (sum_upto (fun k => cell a (x * N + Z.of_nat k)
                                * cell b (Z.of_nat k * N + y)) (Z.to_nat N)).
Proof.
  intros Hy. unfold product_cell.
  destruct (index_div_mod N x y Hy) as [-> ->]. apply dot32_exact.
Qed.

Section Algebra.
Variables (g : globals) (N : Z).
Hypothesis Hctx : square_context g N.
Hypothesis HN : 0 <= N.

(** The cell of a product at row [x] and column [y], as an exact sum
    reduced once. *)
Lemma matrix_mul_cells (a b : matrix) :
  under_context g a -> under_context g b ->
  exists p, matrix_mul g a b = Ok p /\ under_context g p /\
    forall x y, 0 <= x < N -> 0 <= y < N ->
      cell p (x * N + y)
      = wrap32 (sum_upto (fun k => cell a (x * N + Z.of_nat k)
                                    * cell b (Z.of_nat k * N + y)) (Z.to_nat N)).
Proof.
  intros Ha Hb.
  destruct (matrix_mul_spec g N a b Hctx HN Ha Hb) as (p & Hp & Hpc & Hcells).
  exists p. split; [assumption|]. split; [assumption|].
  intros x y Hx Hy. pose proof (index_bound N x y Hx Hy).
  rewrite Hcells by lia. by apply product_cell_exact.
Qed.

Lemma matrix_add_cells_square (a b : matrix) :
  under_context g a -> under_context g b ->
  exists s, matrix_add g a b = Ok s /\ under_context g s /\
    forall x y, 0 <= x < N -> 0 <= y < N ->
      cell s (x * N + y) = wrap32 (cell a (x * N + y) + cell b (x * N + y)).
Proof.
  intros Ha Hb.
  destruct (matrix_add_cells g a Ha b Hb) as (s & Hs & Hsc & Hcells).
  exists s. split; [assumption|]. split; [assumption|].
  intros x y Hx Hy. pose proof (index_bound N x y Hx Hy).
  destruct Hctx as (_ & _ & He). apply Hcells. lia.
Qed.

Lemma scalar_mul_cells_square (a : matrix) (scalar : Z) :
  under_context g a ->
  exists s, scalar_mul g a scalar = Ok s /\ under_context g s /\
    forall x y, 0 <= x < N -> 0 <= y < N ->
      cell s (x * N + y) = wrap32 (cell a (x * N + y) * scalar).
Proof.
  intros Ha.
  destruct (scalar_mul_cells g a Ha scalar) as (s & Hs & Hsc & Hcells).
  exists s. split; [assumption|]. split; [assumption|].
  intros x y Hx Hy. pose proof (index_bound N x y Hx Hy).
  destruct Hctx as (_ & _ & He). apply Hcells. lia.
Qed.
End Algebra.

(** X22. [matrix_mul] is associative: [(a x b) x c] and [a x (b x c)]
    are the same matrix, overflow included. *)
Theorem matrix_mul_assoc (g : globals) (N : Z) (a b c : matrix)
    (Hctx : square_context g N) (HN : 0 <= N)
    (Ha : under_context g a) (Hb : under_context g b) (Hc : under_context g c) :
  exists ab bc r,
    matrix_mul g a b = Ok ab /\ matrix_mul g b c = Ok bc /\
    matrix_mul g ab c = Ok r /\ matrix_mul g a bc = Ok r.
Proof.
  destruct (matrix_mul_cells g N Hctx HN a b Ha Hb) as (ab & Hab & Habc & Habcells).
  destruct (matrix_mul_cells g N Hctx HN b c Hb Hc) as (bc & Hbc & Hbcc & Hbccells).
  destruct (matrix_mul_cells g N Hctx HN ab c Habc Hc) as (r & Hr & Hrc & Hrcells).
  destruct (matrix_mul_cells g N Hctx HN a bc Ha Hbcc) as (r' & Hr' & Hrc' & Hrcells').
  exists ab, bc, r. repeat (split; [assumption|]).
  rewrite Hr'. f_equal. apply (matrix_ext_square g N); try assumption.
  intros x y Hx Hy. rewrite Hrcells, Hrcells' by assumption.
  rewrite (sum_upto_wrap _
             (fun k => cell a (x * N + Z.of_nat k)
                       * sum_upto (fun l => cell b (Z.of_nat k * N + Z.of_nat l)
                                            * cell c (Z.of_nat l * N + y))
                           (Z.to_nat N))).
  2:{ intros k Hk. rewrite Hbccells by lia. apply wrap32_mul_r. }
  rewrite <- sum_upto_assoc.
  apply sum_upto_wrap. intros l Hl. rewrite Habcells by lia.
  symmetry. apply wrap32_mul_l.
Qed.

Lemma matrix_mul_assoc_witness :
  exists ab bc r,
    matrix_mul order2 [1; 2; 3; 4] [5; 6; 7; 8] = Ok ab /\
    matrix_mul order2 [5; 6; 7; 8] [4294967295; 1; 0; 2] = Ok bc /\
    matrix_mul order2 ab [4294967295; 1; 0; 2] = Ok r /\
    matrix_mul order2 [1; 2; 3; 4] bc = Ok r.
Proof.
  apply (matrix_mul_assoc order2 2 [1; 2; 3; 4] [5; 6; 7; 8] [4294967295; 1; 0; 2]).
  - repeat split.
  - lia.
  - reflexivity.
  - reflexivity.
  - reflexivity.
Defined.

(** X23. [matrix_mul] distributes over [matrix_add] on both sides. *)
Theorem matrix_mul_distributes (g : globals) (N : Z) (a b c : matrix)
    (Hctx : square_context g N) (HN : 0 <= N)
    (Ha : under_context g a) (Hb : under_context g b) (Hc : under_context g c) :
  (exists s ab ac r,
     matrix_add g b c = Ok s /\ matrix_mul g a b = Ok ab /\
     matrix_mul g a c = Ok ac /\
     matrix_mul g a s = Ok r /\ matrix_add g ab ac = Ok r)
  /\ (exists s ac bc r,
        matrix_add g a b = Ok s /\ matrix_mul g a c = Ok ac /\
        matrix_mul g b c = Ok bc /\
        matrix_mul g s c = Ok r /\ matrix_add g ac bc = Ok r).
Proof.
  split.
  - destruct (matrix_add_cells_square g N Hctx b c Hb Hc) as (s & Hs & Hsc & Hscells).
    destruct (matrix_mul_cells g N Hctx HN a b Ha Hb) as (ab & Hab & Habc & Habcells).
    destruct (matrix_mul_cells g N Hctx HN a c Ha Hc) as (ac & Hac & Hacc & Haccells).
    destruct (matrix_mul_cells g N Hctx HN a s Ha Hsc) as (r & Hr & Hrc & Hrcells).
    destruct (matrix_add_cells_square g N Hctx ab ac Habc Hacc)
      as (r' & Hr' & Hrc' & Hrcells').
    exists s, ab, ac, r. repeat (split; [assumption|]).
    rewrite Hr'. f_equal. apply (matrix_ext_square g N); try assumption.
    intros x y Hx Hy.
    rewrite Hrcells, Hrcells', Habcells, Haccells by assumption.
    rewrite wrap32_add_l, wrap32_add_r, <- sum_upto_add.
    apply sum_upto_wrap. intros k Hk. rewrite Hscells by lia.
    rewrite wrap32_mul_r. f_equal. lia.
  - destruct (matrix_add_cells_square g N Hctx a b Ha Hb) as (s & Hs & Hsc & Hscells).
    destruct (matrix_mul_cells g N Hctx HN a c Ha Hc) as (ac & Hac & Hacc & Haccells).
    destruct (matrix_mul_cells g N Hctx HN b c Hb Hc) as (bc & Hbc & Hbcc & Hbccells).
    destruct (matrix_mul_cells g N Hctx HN s c Hsc Hc) as (r & Hr & Hrc & Hrcells).
    destruct (matrix_add_cells_square g N Hctx ac bc Hacc Hbcc)
      as (r' & Hr' & Hrc' & Hrcells').
    exists s, ac, bc, r. repeat (split; [assumption|]).
    rewrite Hr'. f_equal. apply (matrix_ext_square g N); try assumption.
    intros x y Hx Hy.
    rewrite Hrcells, Hrcells', Haccells, Hbccells by assumption.
    rewrite wrap32_add_l, wrap32_add_r, <- sum_upto_add.
    apply sum_upto_wrap. intros k Hk. rewrite Hscells by lia.
    rewrite wrap32_mul_l. f_equal. lia.
Qed.

Lemma matrix_mul_distributes_witness :
  exists s ab ac r,
    matrix_add order2 [5; 6; 7; 8] [4294967295; 1; 0; 2] = Ok s /\
    matrix_mul order2 [1; 2; 3; 4] [5; 6; 7; 8] = Ok ab /\
    matrix_mul order2 [1; 2; 3; 4] [4294967295; 1; 0; 2] = Ok ac /\
    matrix_mul order2 [1; 2; 3; 4] s = Ok r /\ matrix_add order2 ab ac = Ok r.
Proof.
  apply (matrix_mul_distributes order2 2
           [1; 2; 3; 4] [5; 6; 7; 8] [4294967295; 1; 0; 2]).
  - repeat split.
  - lia.
  - reflexivity.
  - reflexivity.
  - reflexivity.
Defined.

(** X24. A scalar factor moves through [matrix_mul]: multiplying either
    operand by [s] multiplies the product by [s]. *)
Theorem scalar_mul_matrix_mul (g : globals) (N : Z) (a b : matrix) (s : Z)
    (Hctx : square_context g N) (HN : 0 <= N)
    (Ha : under_context g a) (Hb : under_context g b) :
  exists sa sb ab r,
    scalar_mul g a s = Ok sa /\ scalar_mul g b s = Ok sb /\
    matrix_mul g a b = Ok ab /\ scalar_mul g ab s = Ok r /\
    matrix_mul g sa b = Ok r /\ matrix_mul g a sb = Ok r.
Proof.
  destruct (scalar_mul_cells_square g N Hctx a s Ha) as (sa & Hsa & Hsac & Hsacells).
  destruct (scalar_mul_cells_square g N Hctx b s Hb) as (sb & Hsb & Hsbc & Hsbcells).
  destruct (matrix_mul_cells g N Hctx HN a b Ha Hb) as (ab & Hab & Habc & Habcells).
  destruct (scalar_mul_cells_square g N Hctx ab s Habc) as (r & Hr & Hrc & Hrcells).
  destruct (matrix_mul_cells g N Hctx HN sa b Hsac Hb) as (r1 & Hr1 & Hrc1 & Hrcells1).
  destruct (matrix_mul_cells g N Hctx HN a sb Ha Hsbc) as (r2 & Hr2 & Hrc2 & Hrcells2).
  exists sa, sb, ab, r. repeat (split; [assumption|]). split.
  - rewrite Hr1. f_equal. apply (matrix_ext_square g N); try assumption.
    intros x y Hx Hy. rewrite Hrcells, Hrcells1, Habcells by assumption.
    rewrite wrap32_mul_l, <- sum_upto_scale_r.
    apply sum_upto_wrap. intros k Hk. rewrite Hsacells by lia.
    rewrite wrap32_mul_l. f_equal. lia.
  - rewrite Hr2. f_equal. apply (matrix_ext_square g N); try assumption.
    intros x y Hx Hy. rewrite Hrcells, Hrcells2, Habcells by assumption.
    rewrite wrap32_mul_l, <- sum_upto_scale_r.
    apply sum_upto_wrap. intros k Hk. rewrite Hsbcells by lia.
    rewrite wrap32_mul_r. f_equal. lia.
Qed.

Lemma scalar_mul_matrix_mul_witness :
  exists sa sb ab r,
    scalar_mul order2 [1; 2; 3; 4] 3 = Ok sa /\
    scalar_mul order2 [5; 6; 7; 4294967295] 3 = Ok sb /\
    matrix_mul order2 [1; 2; 3; 4] [5; 6; 7; 4294967295] = Ok ab /\
    scalar_mul order2 ab 3 = Ok r /\
    matrix_mul order2 sa [5; 6; 7; 4294967295] = Ok r /\
    matrix_mul order2 [1; 2; 3; 4] sb = Ok r.
Proof.
  apply (scalar_mul_matrix_mul order2 2 [1; 2; 3; 4] [5; 6; 7; 4294967295] 3).
  - repeat split.
  - lia.
  - reflexivity.
  - reflexivity.
Defined.

(** ** Display *)

Lemma append_assoc (s1 s2 s3 : string) :
  (s1 +:+ s2) +:+ s3 = s1 +:+ (s2 +:+ s3).
Proof.
  induction s1 as [|c s1 IH]; [reflexivity|].
  change (String c ((s1 +:+ s2) +:+ s3) = String c (s1 +:+ s2 +:+ s3)).
  by rewrite IH.
Qed.

Lemma append_empty_r (s : string) : s +:+ "" = s.
Proof.
  induction s as [|c s IH]; [reflexivity|].
  change (String c (s +:+ "") = String c s). by rewrite IH.
Qed.

Lemma concat_snoc (sep : string) (l : list string) (x : string) :
  l <> [] ->
  String.concat sep (l ++ [x]) = String.concat sep l +:+ sep +:+ x.
Proof.
  induction l as [|y l IH]; [done|]. intros _.
  destruct l as [|z l]; [reflexivity|].
  change (String.concat sep ((y :: z :: l) ++ [x]))
    with (y +:+ sep +:+ String.concat sep ((z :: l) ++ [x])).
  rewrite IH by done.
  change (String.concat sep (y :: z :: l))
    with (y +:+ sep +:+ String.concat sep (z :: l)).
  by rewrite !append_assoc.
Qed.

Lemma joined_snoc (l : list string) (x : string) :
  joined (l ++ [x]) = joined l +:+ x.
Proof.
  unfold joined. induction l as [|y l IH]; simpl.
  - apply append_empty_r.
  - by rewrite IH, append_assoc.
Qed.

Lemma seqZ_snoc (i : Z) : 0 <= i -> seqZ 0 (i + 1) = seqZ 0 i ++ [i].
Proof.
  intros Hi. rewrite seqZ_app by lia. f_equal.
Qed.

Lemma lookup_fmap_seqZ (text : Z -> string) (n y : Z) :
  0 <= y < n -> (text <$> seqZ 0 n) !!! Z.to_nat y = text y.
Proof.
  intros Hy. apply list_lookup_total_correct.
  rewrite list_lookup_fmap, lookup_seqZ_lt by lia. simpl. do 2 f_equal. lia.
Qed.

(** A loop that appends the text [text i] at every index [i]. *)
Lemma append_loop (n : Z) (text : Z -> string)
    (body : Z -> string -> outcome string) (out0 : string) :
  0 <= n ->
  (forall i out, 0 <= i < n -> body i out = Ok (out +:+ text i)) ->
  for_loop 0 n body out0 = Ok (out0 +:+ joined (text <$> seqZ 0 n)).
Proof.
  intros Hn Hbody.
  destruct (for_loop_rule
    (fun i (acc : string) => acc = out0 +:+ joined (text <$> seqZ 0 i))
    0 n body out0) as (acc & Hrun & ->).
  - assumption.
  - symmetry. apply append_empty_r.
  - intros i acc Hi ->. rewrite Hbody by assumption.
    eexists. split; [reflexivity|].
    rewrite seqZ_snoc, fmap_app by lia. simpl fmap.
    by rewrite joined_snoc, append_assoc.
  - assumption.
Qed.

Section ForUndefinedAt.
Context {St : Type}.

(** A counted loop whose body is undefined at some iteration, whatever
    the state, is undefined. *)
Lemma for_loop_undefined_at (lo hi k : Z) (body : Z -> St -> outcome St)
    (s : St) :
  lo <= k < hi ->
  (forall t, body k t = Undefined) ->
  (forall i t, body i t <> OutOfFuel) ->
  for_loop lo hi body s = Undefined.
Proof.
  intros Hk Hfail Hfuel. unfold for_loop.
  assert (forall fuel i t, lo <= i <= k ->
            (Z.to_nat (hi - i) < fuel)%nat ->
            while_loop fuel (fun '(i, _) => i <? hi)
              (fun '(i, s) => s' ← body i s; Ok (i + 1, s')) (i, t)
            = Undefined) as Hloop.
  { induction fuel as [|fuel IH]; intros i t Hi Hlt; [lia|].
    simpl. replace (i <? hi) with true by (symmetry; apply Z.ltb_lt; lia).
    destruct (Z.eq_dec i k) as [->|Hne]; [by rewrite Hfail|].
    pose proof (Hfuel i t).
    destruct (body i t) as [t'| |]; simpl; [|reflexivity|done].
    apply IH; lia. }
  by rewrite Hloop by lia.
Qed.
End ForUndefinedAt.

Section Display.
Variables (g : globals) (N : Z) (m : matrix).
Hypothesis Hctx : square_context g N.
Hypothesis HN : 0 <= N.
Hypothesis Hm : under_context g m.

Lemma display_cells_spec (row : Z) (out : string) :
  0 <= row < N ->
  display_cells g m row out
  = Ok (out +:+ String.concat " " (map print_uint32 (row_words N m row))).
Proof.
  intros Hrow. destruct Hctx as (Hw & _ & He).
  unfold display_cells, row_words, under_context in *. rewrite Hw.
  set (k := Z.to_nat (row * N)).
  destruct (for_loop_rule
    (fun i (acc : string) =>
       acc = out +:+ String.concat " "
                       (map print_uint32 (take (Z.to_nat i) (drop k m))))
    0 N
    (fun x out =>
       let out := if x >? 0 then out +:+ " " else out in
       v ← load m (row * N + x); Ok (out +:+ print_uint32 v))
    out) as (acc & Hrun & ->).
  - assumption.
  - symmetry. apply append_empty_r.
  - intros i acc Hi ->. pose proof (index_bound N row i Hrow Hi).
    cbv zeta. rewrite load_cell by lia. rewrite bind_Ok.
    eexists. split; [reflexivity|].
    replace (Z.to_nat (i + 1)) with (S (Z.to_nat i)) by lia.
    rewrite (take_S_r _ _ (cell m (row * N + i))).
    2:{ rewrite lookup_drop. unfold cell.
        replace (k + Z.to_nat i)%nat with (Z.to_nat (row * N + i)) by lia.
        apply list_lookup_lookup_total_lt. lia. }
    rewrite map_app. simpl map.
    destruct (Z.gtb_spec i 0) as [Hpos|Hzero].
    + rewrite concat_snoc.
      * by rewrite !append_assoc.
      * intros Hnil. apply (f_equal length) in Hnil.
        rewrite length_map, length_take, length_drop in Hnil. simpl in Hnil. lia.
    + replace (Z.to_nat i) with O by lia. simpl. by rewrite append_empty_r.
  - assumption.
Qed.

Lemma display_row_spec (row : Z) :
  0 <= row < N ->
  display_row g m row
  = Ok (String.concat " " (map print_uint32 (row_words N m row)) +:+ newline).
Proof.
  intros Hrow. unfold display_row. by rewrite display_cells_spec.
Qed.

Lemma display_element_spec (row column : Z) :
  0 <= row * N + column < N * N ->
  display_element g m row column
  = Ok (print_uint32 (cell m (row * N + column)) +:+ newline).
Proof.
  intros Hi. destruct Hctx as (Hw & _ & He).
  unfold display_element, under_context in *. rewrite Hw.
  by rewrite load_cell by lia.
Qed.
End Display.

(** X25. [display_row] writes the words of the row in decimal, separated
    by single spaces, and ends the line. *)
Theorem display_row_text (g : globals) (N : Z) (m : matrix) (row : Z)
    (Hctx : square_context g N) (HN : 0 <= N) (Hm : under_context g m)
    (Hrow : 0 <= row < N) :
  display_row g m row
  = Ok (String.concat " " (map print_uint32 (row_words N m row)) +:+ newline).
Proof. by apply display_row_spec. Qed.

Lemma display_row_text_witness :
  display_row order2 [1; 2; 30; 4294967295] 1
  = Ok (String.concat " " (map print_uint32 (row_words 2 [1; 2; 30; 4294967295] 1))
        +:+ newline).
Proof.
  apply (display_row_text order2 2 [1; 2; 30; 4294967295] 1).
  - repeat split.
  - lia.
  - reflexivity.
  - lia.
Defined.

(** X26. [display] writes, in order, the lines that [display_row] writes
    for the rows 0 to N - 1. *)
Theorem display_rows (g : globals) (N : Z) (m : matrix)
    (Hctx : square_context g N) (HN : 0 <= N) (Hm : under_context g m) :
  exists rows, Z.of_nat (length rows) = N /\
    (forall y, 0 <= y < N -> display_row g m y = Ok (rows !!! Z.to_nat y)) /\
    display g m = Ok (joined rows).
Proof.
  set (text := fun y =>
         String.concat " " (map print_uint32 (row_words N m y)) +:+ newline).
  exists (text <$> seqZ 0 N). split; [|split].
  - rewrite length_fmap, length_seqZ. lia.
  - intros y Hy. rewrite (display_row_spec g N m Hctx HN Hm y Hy).
    f_equal. by rewrite lookup_fmap_seqZ.
  - unfold display. pose proof Hctx as (_ & Hh & _). rewrite Hh.
    rewrite (append_loop N text); [reflexivity | assumption |].
    intros y out Hy. rewrite (display_cells_spec g N m Hctx HN Hm y out Hy).
    rewrite bind_Ok. unfold text. by rewrite append_assoc.
Qed.

Lemma display_rows_witness :
  exists rows, Z.of_nat (length rows) = 2 /\
    (forall y, 0 <= y < 2 ->
       display_row order2 [1; 2; 30; 4] y = Ok (rows !!! Z.to_nat y)) /\
    display order2 [1; 2; 30; 4] = Ok (joined rows).
Proof.
  apply (display_rows order2 2 [1; 2; 30; 4]).
  - repeat split.
  - lia.
  - reflexivity.
Defined.

(** X27. [display_column] writes, in order, what [display_element] writes
    for the rows 0 to N - 1 of that column. *)
Theorem display_column_elements (g : globals) (N : Z) (m : matrix) (column : Z)
    (Hctx : square_context g N) (HN : 0 <= N) (Hm : under_context g m)
    (Hcol : 0 <= column < N) :
  exists cells, Z.of_nat (length cells) = N /\
    (forall y, 0 <= y < N ->
       display_element g m y column = Ok (cells !!! Z.to_nat y)) /\
    display_column g m column = Ok (joined cells).
Proof.
  set (text := fun y => print_uint32 (cell m (y * N + column)) +:+ newline).
  exists (text <$> seqZ 0 N). split; [|split].
  - rewrite length_fmap, length_seqZ. lia.
  - intros y Hy. pose proof (index_bound N y column Hy Hcol).
    rewrite (display_element_spec g N m Hctx Hm y column) by assumption.
    f_equal. by rewrite lookup_fmap_seqZ.
  - unfold display_column. pose proof Hctx as (Hw & Hh & He). rewrite Hh, Hw.
    rewrite (append_loop N text); [reflexivity | assumption |].
    intros y out Hy. pose proof (index_bound N y column Hy Hcol).
    unfold under_context in Hm. by rewrite load_cell by lia.
Qed.

Lemma display_column_elements_witness :
  exists cells, Z.of_nat (length cells) = 2 /\
    (forall y, 0 <= y < 2 ->
       display_element order2 [1; 2; 30; 4] y 1 = Ok (cells !!! Z.to_nat y)) /\
    display_column order2 [1; 2; 30; 4] 1 = Ok (joined cells).
Proof.
  apply (display_column_elements order2 2 [1; 2; 30; 4] 1).
  - repeat split.
  - lia.
  - reflexivity.
  - lia.
Defined.



(** X29. With at least one row, [display_row] on a row outside of
    [0, N) and [display_column] on a column outside of [0, N) are
    undefined: each reads outside of the buffer. *)
Theorem display_out_of_range (g : globals) (N : Z) (m : matrix) (i : Z)
    (Hctx : square_context g N) (HN : 1 <= N) (Hm : under_context g m)
    (Hout : ~ 0 <= i < N) :
  display_row g m i = Undefined /\ display_column g m i = Undefined.
Proof.
  pose proof Hctx as (Hw & Hh & He). unfold under_context in Hm. split.
  - unfold display_row, display_cells. rewrite Hw.
    rewrite (for_loop_undefined (fun _ _ => True) 0 N 0); [reflexivity | lia | exact I | intros; lia |].
    intros t _. cbv zeta. rewrite load_undefined; [reflexivity | nia].
  - unfold display_column. rewrite Hw, Hh.
    destruct (Z.lt_ge_cases i 0) as [Hneg|Hbig].
    + apply (for_loop_undefined (fun _ _ => True) 0 N 0); [lia | exact I | intros; lia |].
      intros t _. rewrite load_undefined; [reflexivity | lia].
    + apply (for_loop_undefined_at 0 N (N - 1)); [lia | |].
      * intros t. rewrite load_undefined; [reflexivity | nia].
      * intros y t. pose proof (load_fuel m (y * N + i)).
        destruct (load m (y * N + i)); simpl; done.
Qed.

Lemma display_out_of_range_witness :
  display_row order2 [1; 2; 30; 4] 2 = Undefined
  /\ display_column order2 [1; 2; 30; 4] 2 = Undefined.
Proof.
  apply (display_out_of_range order2 2 [1; 2; 30; 4] 2).
  - repeat split.
  - lia.
  - reflexivity.
  - lia.
Defined.
